(** * errgroup: a group of goroutines with first-outcome arbitration

    A shallow embedding of [errgroup.go]: the [Group] struct, its constructors,
    [Go], [Wait], [Stop], [cancel], [doubleDeferSandwich], [errorOrStack] and
    [panicStack.String], followed by the properties of the specification.

    Goroutines are modelled by an interleaving semantics: a [World] holds the
    group, one program counter per goroutine started by [Go], and what the
    environment observes (calls of the bound cancel function, results of
    [Wait]).  Every call of [sync.Once.Do] is one step, since [sync.Once]
    serialises its callers. *)

From Stdlib Require Import ZArith Lia Bool Ascii.
From stdpp Require Import base option list strings.

Module Errgroup.

(** ** Values *)

(** A Go [error]: errors compare by identity, kept here as [errId], and print
    through their [Error] method. *)
Record error := mkError { errId : nat; Error : string }.

(** A value of type [interface{}], as far as the package looks at it: nil, a
    string, something implementing [error], some other dynamic type (with its
    [%v] form), or a [panicStack] with its fields [value] and [stack]. *)
Inductive value :=
| VNil
| VString (s : string)
| VError (e : error)
| VOther (repr : string)
| VPanicStack (value : value) (stack : string).

(** [_, ok := v.(error)] *)
Definition isError (v : value) : bool :=
  match v with VError _ => true | _ => false end.

(** [v != nil] *)
Definition notNil (v : value) : bool :=
  match v with VNil => false | _ => true end.

Definition newline : ascii := "010"%char.

(** The text between [%v] and [%s] in the format of [panicStack.String]. *)
Definition viaGo : string :=
  String newline (String newline ("via errgroup.Go:" +:+ String newline "")).

(** [fmt.Sprint]; a [panicStack] prints through its [String] method,
    [fmt.Sprintf("%v\n\nvia errgroup.Go:\n%s", p.value, p.stack)]. *)
Fixpoint Sprint (v : value) : string :=
  match v with
  | VNil => "<nil>"
  | VString s => s
  | VError e => Error e
  | VOther repr => repr
  | VPanicStack p stack => Sprint p +:+ viaGo +:+ stack
  end.

Definition panicStack_String (p : value) (stack : string) : string :=
  Sprint p +:+ viaGo +:+ stack.

(** ** Capturing the stack *)

(** [runtime.Stack(buf, false)] for a goroutine whose formatted trace is [tr]:
    the number of bytes written into a buffer of [len] bytes. *)
Definition runtime_Stack (tr : string) (len : nat) : nat :=
  Nat.min (String.length tr) len.

(** The loop of [errorOrStack] that doubles the buffer while the trace fills
    it; the result is the length of the final buffer. *)
Fixpoint growStack (fuel : nat) (tr : string) (len : nat) : option nat :=
  if runtime_Stack tr len =? len then
    match fuel with
    | O => None
    | S fuel' => growStack fuel' tr (len * 2)
    end
  else Some len.

(** [bytes.IndexByte(s, c)] *)
Fixpoint IndexByte (s : string) (c : ascii) : option nat :=
  match s with
  | EmptyString => None
  | String a s' => if Ascii.eqb a c then Some 0 else S <$> IndexByte s' c
  end.

(** [s[:n]] and [s[n:]] *)
Fixpoint sliceTo (s : string) (n : nat) : string :=
  match n, s with
  | S n', String a s' => String a (sliceTo s' n')
  | _, _ => EmptyString
  end.

Fixpoint sliceFrom (s : string) (n : nat) : string :=
  match n, s with
  | S n', String _ s' => sliceFrom s' n'
  | _, _ => s
  end.

(** The first line of the trace is trimmed when there is one. *)
Definition trimFirstLine (stack : string) : string :=
  match IndexByte stack newline with
  | Some line => sliceFrom stack (line + 1)
  | None => stack
  end.

(** [errorOrStack(v)], run by a goroutine whose trace is [tr].  [None] only
    if the doubling loop did not end within its fuel, which [growStack_total]
    excludes. *)
Definition errorOrStack (tr : string) (v : value) : option value :=
  if isError v then Some v
  else
    len ← growStack (S (String.length tr)) tr (2 * 2 ^ 10);
    let n := runtime_Stack tr len in
    let stack := sliceTo tr n in
    Some (VPanicStack v (trimFirstLine stack)).

(** ** Results of a step *)

(** [Blocked]: the step cannot happen now (a goroutine is not at that point, or
    [wg.Wait] has to keep waiting).  [Fault]: the package's own code raises a
    run-time panic (a call of a nil func value, a negative [WaitGroup]
    counter). *)
Inductive result (A : Type) :=
| Ok (a : A)
| Blocked
| Fault.
Arguments Ok {A} a.
Arguments Blocked {A}.
Arguments Fault {A}.

#[export] Instance result_ret : MRet result := fun _ a => Ok a.
#[export] Instance result_bind : MBind result := fun _ _ f m =>
  match m with
  | Ok a => f a
  | Blocked => Blocked
  | Fault => Fault
  end.

(** ** The Group *)

(** The function returned by [context.WithCancel]. *)
Inductive CancelFunc := ctxCancel.

(** [wg] is the counter of the [sync.WaitGroup]; each [sync.Once] is its
    done flag; a nil [cancelCtx] is [None], a nil [panic] is [VNil], a nil
    [err] is [None]. *)
Record Group := mkGroup {
  wg : Z;
  cancelOnWait : bool;
  cancelOnce : bool;
  cancelCtx : option CancelFunc;
  errOnce : bool;
  err : option error;
  terminateOnce : bool;
  panic : value;
  goexit : bool
}.

Definition zeroGroup : Group :=
  mkGroup 0 false false None false None false VNil false.

(** [WithContext(ctx)]: [&Group{cancelCtx: cancel, cancelOnWait: true}].
    The derived context itself is not represented: what is kept of it is how
    often its cancel function has been called, [ctxCalls] below. *)
Definition WithContext : Group :=
  mkGroup 0 true false (Some ctxCancel) false None false VNil false.

(** [New(ctx)]: [&Group{cancelCtx: cancel}] *)
Definition New : Group :=
  mkGroup 0 false false (Some ctxCancel) false None false VNil false.

Definition set_wg (n : Z) (g : Group) : Group :=
  mkGroup n (cancelOnWait g) (cancelOnce g) (cancelCtx g)
          (errOnce g) (err g) (terminateOnce g) (panic g) (goexit g).
Definition set_cancelOnce (g : Group) : Group :=
  mkGroup (wg g) (cancelOnWait g) true (cancelCtx g)
          (errOnce g) (err g) (terminateOnce g) (panic g) (goexit g).
Definition set_errOnce (g : Group) : Group :=
  mkGroup (wg g) (cancelOnWait g) (cancelOnce g) (cancelCtx g)
          true (err g) (terminateOnce g) (panic g) (goexit g).
Definition set_err (e : option error) (g : Group) : Group :=
  mkGroup (wg g) (cancelOnWait g) (cancelOnce g) (cancelCtx g)
          (errOnce g) e (terminateOnce g) (panic g) (goexit g).
Definition set_terminateOnce (g : Group) : Group :=
  mkGroup (wg g) (cancelOnWait g) (cancelOnce g) (cancelCtx g)
          (errOnce g) (err g) true (panic g) (goexit g).
Definition set_panic (v : value) (g : Group) : Group :=
  mkGroup (wg g) (cancelOnWait g) (cancelOnce g) (cancelCtx g)
          (errOnce g) (err g) (terminateOnce g) v (goexit g).
Definition set_goexit (b : bool) (g : Group) : Group :=
  mkGroup (wg g) (cancelOnWait g) (cancelOnce g) (cancelCtx g)
          (errOnce g) (err g) (terminateOnce g) (panic g) b.

(** The methods run on the group together with the number of times the bound
    cancel function has been called so far. *)
Definition mem : Type := Group * nat.

(** A call [f()] of a func value: calling nil is a run-time panic. *)
Definition callCancelFunc (f : option CancelFunc) (calls : nat) : result nat :=
  match f with
  | Some ctxCancel => Ok (S calls)
  | None => Fault
  end.

(** [g.cancel()] *)
Definition cancel (m : mem) : result mem :=
  let '(g, calls) := m in
  if cancelOnce g then Ok (g, calls)
  else
    let g := set_cancelOnce g in
    if bool_decide (cancelCtx g ≠ None) then
      calls ← callCancelFunc (cancelCtx g) calls; Ok (g, calls)
    else Ok (g, calls).

(** ** Tasks *)

(** What the function passed to [Go] does in the end: it returns an error
    (possibly nil), panics, or calls [runtime.Goexit].  [PanicWith v] is a
    panic for which [recover()] yields [v].  A function that blocks or never
    ends has no end to record: its goroutine stays inside the function, and
    no run has to contain the step that leaves it. *)
Inductive behaviour :=
| ReturnErr (e : option error)
| PanicWith (v : value)
| RuntimeGoexit.

(** A task: its behaviour and the trace [runtime.Stack] formats for its
    goroutine in the deferred function of [doubleDeferSandwich]. *)
Record task := mkTask { body : behaviour; trace : string }.

(** What [doubleDeferSandwich] leaves behind: its two results, the flag it
    wrote through [goexiting], and whether it returned to its caller at all
    (it does not when the goroutine is exiting). *)
Record sandwich := mkSandwich {
  sw_panicValue : value;
  sw_err : option error;
  sw_goexiting : bool;
  sw_returned : bool
}.

(** [doubleDeferSandwich(&goexiting, f)] *)
Definition doubleDeferSandwich (t : task) : option sandwich :=
  (* err = f(); normalReturn = true *)
  let normalReturn := match body t with ReturnErr _ => true | _ => false end in
  let err := match body t with ReturnErr e => e | _ => None end in
  (* inner deferred function *)
  let recover := match body t with PanicWith v => v | _ => VNil end in
  panicValue ← (if negb normalReturn then errorOrStack (trace t) recover
                else Some VNil);
  (* the inner function returns unless the goroutine is exiting *)
  let resumed := match body t with RuntimeGoexit => false | _ => true end in
  let recovered := resumed && negb normalReturn in
  (* outer deferred function *)
  let goexiting := negb normalReturn && negb recovered in
  Some (mkSandwich panicValue err goexiting resumed).

(** The goroutine of [Go] from the return of [doubleDeferSandwich] up to,
    and without, [g.wg.Done()]. *)
Definition commit (s : sandwich) (m : mem) : result mem :=
  m ← (if sw_returned s then
         if notNil (sw_panicValue s) then
           (* g.terminateOnce.Do *)
           if terminateOnce (fst m) then Ok m
           else cancel (set_panic (sw_panicValue s) (set_terminateOnce (fst m)), snd m)
         else if bool_decide (sw_err s ≠ None) then
           (* g.errOnce.Do *)
           if errOnce (fst m) then Ok m
           else cancel (set_err (sw_err s) (set_errOnce (fst m)), snd m)
         else Ok m
       else Ok m);
  (* the deferred function *)
  if sw_goexiting s then
    if terminateOnce (fst m) then Ok m
    else cancel (set_goexit true (set_terminateOnce (fst m)), snd m)
  else Ok m.

(** [g.wg.Add(delta)]: a negative counter is a run-time panic.  The counter
    of [sync.WaitGroup] is an int32; its upper limit, which takes 2^31 live
    goroutines to reach, and the checks of [sync.WaitGroup] against an [Add]
    that races with a waking [Wait] are left out.  A statement that needs
    the counter in range says so. *)
Definition wg_Add (delta : Z) (g : Group) : result Group :=
  if (wg g + delta <? 0)%Z then Fault else Ok (set_wg (wg g + delta)%Z g).

(** [g.wg.Done()] *)
Definition wg_Done (g : Group) : result Group := wg_Add (-1) g.

(** [g.wg.Wait()] returns once the counter is zero. *)
Definition wg_Wait (g : Group) : result unit :=
  if (wg g =? 0)%Z then Ok () else Blocked.

(** ** Wait and Stop *)

(** How a call of [Wait] ends. *)
Inductive WaitOutcome :=
| WaitPanics (v : value)
| WaitGoexits
| WaitReturns (e : option error).

(** [g.Wait()] *)
Definition Wait (m : mem) : result (mem * WaitOutcome) :=
  _ ← wg_Wait (fst m);
  m ← (if cancelOnWait (fst m) then cancel m else Ok m);
  if notNil (panic (fst m)) then Ok (m, WaitPanics (panic (fst m)))
  else if goexit (fst m) then Ok (m, WaitGoexits)
  else Ok (m, WaitReturns (err (fst m))).

(** [g.Stop()] is [g.cancel()] followed by [g.wg.Wait()]. *)
Definition Stop_cancel (m : mem) : result mem := cancel m.
Definition Stop_join (m : mem) : result unit := wg_Wait (fst m).

(** ** Goroutines and the interleaving semantics *)

(** Where the goroutine started by [Go] is: inside [f]; past
    [doubleDeferSandwich], before its outcome is recorded; past that, before
    [g.wg.Done()]; gone. *)
Inductive pc := InF | AfterF | BeforeDone | Exited.

Record goroutine := mkGoroutine { fn : task; at_pc : pc }.

(** The group, the goroutines started by [Go] in the order of the calls, and
    the observations: calls of the bound cancel function, outcomes of the
    calls of [Wait] that ended (newest first), calls of [Stop] waiting in
    [wg.Wait] and calls of [Stop] that returned.  [commits] is a history
    variable: which goroutine recorded its outcome, oldest first, with what
    [doubleDeferSandwich] had left it. *)
Record World := mkWorld {
  grp : Group;
  goroutines : list goroutine;
  ctxCalls : nat;
  commits : list (nat * sandwich);
  waits : list WaitOutcome;
  stopsWaiting : nat;
  stopsReturned : nat
}.

Definition with_pc (w : World) (i : nat) (f : task) (p : pc) : World :=
  mkWorld (grp w) (<[i := mkGoroutine f p]> (goroutines w)) (ctxCalls w)
          (commits w) (waits w) (stopsWaiting w) (stopsReturned w).

Definition memOf (w : World) : mem := (grp w, ctxCalls w).

Inductive event :=
| CallGo (f : task)       (* g.Go(f) *)
| Terminate (i : nat)     (* f ends in goroutine i; doubleDeferSandwich is left *)
| Commit (i : nat)        (* goroutine i records its outcome *)
| Done (i : nat)          (* goroutine i runs g.wg.Done() and is gone *)
| CallWait                (* g.Wait(), from the return of its wg.Wait() on *)
| CallStop                (* g.Stop() up to its wg.Wait() *)
| StopReturns.            (* the wg.Wait() of a waiting Stop returns *)

(** [g.Go(f)], the part run by the caller: [g.wg.Add(1)] and the [go]
    statement.  What the new goroutine does is in the steps below. *)
Definition Go (f : task) (w : World) : result World :=
  g ← wg_Add 1 (grp w);
  Ok (mkWorld g (goroutines w ++ [mkGoroutine f InF]) (ctxCalls w)
              (commits w) (waits w) (stopsWaiting w) (stopsReturned w)).

Definition step (w : World) (ev : event) : result World :=
  match ev with
  | CallGo f => Go f w
  | Terminate i =>
      match goroutines w !! i with
      | Some (mkGoroutine f InF) =>
          match doubleDeferSandwich f with
          | Some _ => Ok (with_pc w i f AfterF)
          | None => Blocked
          end
      | _ => Blocked
      end
  | Commit i =>
      match goroutines w !! i with
      | Some (mkGoroutine f AfterF) =>
          match doubleDeferSandwich f with
          | Some s =>
              m ← commit s (memOf w);
              Ok (mkWorld (fst m) (<[i := mkGoroutine f BeforeDone]> (goroutines w))
                          (snd m) (commits w ++ [(i, s)]) (waits w)
                          (stopsWaiting w) (stopsReturned w))
          | None => Blocked
          end
      | _ => Blocked
      end
  | Done i =>
      match goroutines w !! i with
      | Some (mkGoroutine f BeforeDone) =>
          g ← wg_Done (grp w);
          Ok (mkWorld g (<[i := mkGoroutine f Exited]> (goroutines w))
                      (ctxCalls w) (commits w) (waits w)
                      (stopsWaiting w) (stopsReturned w))
      | _ => Blocked
      end
  | CallWait =>
      r ← Wait (memOf w);
      Ok (mkWorld (fst (fst r)) (goroutines w) (snd (fst r)) (commits w)
                  (snd r :: waits w) (stopsWaiting w) (stopsReturned w))
  | CallStop =>
      m ← Stop_cancel (memOf w);
      Ok (mkWorld (fst m) (goroutines w) (snd m) (commits w) (waits w)
                  (S (stopsWaiting w)) (stopsReturned w))
  | StopReturns =>
      match stopsWaiting w with
      | O => Blocked
      | S n =>
          _ ← Stop_join (memOf w);
          Ok (mkWorld (grp w) (goroutines w) (ctxCalls w) (commits w) (waits w)
                      n (S (stopsReturned w)))
      end
  end.

Fixpoint run (w : World) (evs : list event) : result World :=
  match evs with
  | [] => Ok w
  | ev :: evs => w ← step w ev; run w evs
  end.

(** A group fresh from its constructor, before any call. *)
Definition init (g : Group) : World := mkWorld g [] 0 [] [] 0 0.

(** The three ways to make a group. *)
Definition fresh (g : Group) : Prop :=
  g = zeroGroup ∨ g = New ∨ g = WithContext.

(** ** What a goroutine records *)

Inductive kind :=
| KNothing
| KError (e : error)
| KPanic (v : value)
| KGoexit.

Definition classify (s : sandwich) : kind :=
  if sw_goexiting s then KGoexit
  else if notNil (sw_panicValue s) then KPanic (sw_panicValue s)
  else match sw_err s with Some e => KError e | None => KNothing end.

Definition isTermination (k : kind) : bool :=
  match k with KPanic _ | KGoexit => true | _ => false end.

Definition isFailure (k : kind) : bool :=
  match k with KError _ => true | _ => false end.

(** The kinds recorded so far, oldest first. *)
Definition recorded (w : World) : list kind :=
  map (fun c => classify (snd c)) (commits w).

(** The first element of a list that satisfies a test. *)
Fixpoint first (p : kind → bool) (l : list kind) : option kind :=
  match l with
  | [] => None
  | k :: l => if p k then Some k else first p l
  end.

Definition has (p : kind → bool) (l : list kind) : bool :=
  match first p l with Some _ => true | None => false end.

(** The tasks passed to [Go] by a sequence of events, in the order of the
    calls. *)
Definition launched (evs : list event) : list task :=
  omap (fun ev => match ev with CallGo f => Some f | _ => None end) evs.

(** ** The group as a function of what happened

    The fields of a reachable group are determined by the goroutines, the
    recorded kinds, and the calls of [Stop] and [Wait]; this is the invariant
    of the semantics. *)

Definition errOf (l : list kind) : option error :=
  match first isFailure l with Some (KError e) => Some e | _ => None end.

Definition panicOf (l : list kind) : value :=
  match first isTermination l with Some (KPanic v) => v | _ => VNil end.

Definition goexitOf (l : list kind) : bool :=
  match first isTermination l with Some KGoexit => true | _ => false end.

Definition isLive (gr : goroutine) : bool :=
  match at_pc gr with Exited => false | _ => true end.

(** The goroutines that have not run [g.wg.Done()] yet. *)
Fixpoint live (l : list goroutine) : nat :=
  match l with
  | [] => 0
  | gr :: l => (if isLive gr then 1 else 0) + live l
  end.

Definition stopCalls (w : World) : nat := stopsWaiting w + stopsReturned w.

Definition cancelRequested (g0 : Group) (R : list kind) (stops : nat)
    (ws : list WaitOutcome) : bool :=
  has isTermination R || has isFailure R || (0 <? stops)
  || (cancelOnWait g0 && negb (bool_decide (ws = []))).

Definition groupOf (g0 : Group) (gs : list goroutine) (R : list kind)
    (stops : nat) (ws : list WaitOutcome) : Group :=
  mkGroup (Z.of_nat (live gs)) (cancelOnWait g0)
          (cancelRequested g0 R stops ws) (cancelCtx g0)
          (has isFailure R) (errOf R) (has isTermination R) (panicOf R)
          (goexitOf R).

Definition callsOf (g0 : Group) (R : list kind) (stops : nat)
    (ws : list WaitOutcome) : nat :=
  if cancelRequested g0 R stops ws && bool_decide (cancelCtx g0 ≠ None)
  then 1 else 0.

Definition Inv (g0 : Group) (w : World) : Prop :=
  grp w = groupOf g0 (goroutines w) (recorded w) (stopCalls w) (waits w) ∧
  ctxCalls w = callsOf g0 (recorded w) (stopCalls w) (waits w).

Definition hasCommitted (p : pc) : bool :=
  match p with BeforeDone | Exited => true | _ => false end.

(** The history [commits] and the program counters agree: the goroutines
    past their outcome statement are those in the history, each once, with
    the result of [doubleDeferSandwich] on their task. *)
Record Linked (w : World) : Prop := mkLinked {
  linked_commit : ∀ i s, (i, s) ∈ commits w →
    ∃ gr, goroutines w !! i = Some gr ∧
          doubleDeferSandwich (fn gr) = Some s ∧
          hasCommitted (at_pc gr) = true;
  linked_goroutine : ∀ i gr, goroutines w !! i = Some gr →
    hasCommitted (at_pc gr) = true → ∃ s, (i, s) ∈ commits w;
  linked_once : NoDup (commits w).*1
}.

(** ** Measures and the test of the zero Group *)

(** The steps a goroutine still has to take before it is gone. *)
Definition remaining (p : pc) : nat :=
  match p with InF => 3 | AfterF => 2 | BeforeDone => 1 | Exited => 0 end.

Fixpoint todo (gs : list goroutine) : nat :=
  match gs with
  | [] => 0
  | gr :: gs => remaining (at_pc gr) + todo gs
  end.

(** The events that are steps of a goroutine, not calls on the group. *)
Definition goroutineStep (ev : event) : bool :=
  match ev with Terminate _ | Commit _ | Done _ => true | _ => false end.

(** The steps of a goroutine that are the package's own code: what [Go]
    runs once the function of the task has ended. *)
Definition recordingStep (ev : event) : bool :=
  match ev with Commit _ | Done _ => true | _ => false end.

#[export] Instance error_eq_dec : EqDecision error.
Proof. solve_decision. Defined.

(** [errgroup_test.go], the loop of [TestZeroGroup] over the errors of one
    case, from the world [w] the earlier rounds left and with the [firstErr]
    they left.  A round calls [g.Go] with a task that returns [err], updates
    [firstErr], and calls [g.Wait], which returns once the new goroutine is
    gone; the result is whether no round called [t.Errorf].  [tr] is the
    trace of the goroutines. *)
Fixpoint TestZeroGroup_rounds (tr : string) (errs : list (option error))
    (firstErr : option error) (w : World) : result bool :=
  match errs with
  | [] => Ok true
  | err :: errs =>
      let i := length (goroutines w) in
      w ← run w [CallGo (mkTask (ReturnErr err) tr);
                 Terminate i; Commit i; Done i];
      (* if firstErr == nil && err != nil { firstErr = err } *)
      let firstErr :=
        if bool_decide (firstErr = None) && bool_decide (err ≠ None)
        then err else firstErr in
      w ← step w CallWait;
      match waits w with
      | WaitReturns gErr :: _ =>
          rest ← TestZeroGroup_rounds tr errs firstErr w;
          Ok (bool_decide (gErr = firstErr) && rest)
      | _ => Ok false
      end
  end.

(** One case of [TestZeroGroup]: [var g errgroup.Group; var firstErr error]
    and the loop. *)
Definition TestZeroGroup_case (tr : string) (errs : list (option error))
    : result bool :=
  TestZeroGroup_rounds tr errs None (init zeroGroup).

(** A zero group between two rounds: nothing runs, no panic, no Goexit. *)
Definition atRest (firstErr : option error) (w : World) : Prop :=
  ∃ c, grp w = mkGroup 0 false c None (bool_decide (firstErr ≠ None))
                       firstErr false VNil false.

(** Whether a step or a run went through. *)
Definition isOk {A} (r : result A) : bool :=
  match r with Ok _ => true | _ => false end.

(** ** Concrete groups, used to exercise the statements below *)

Module Sample.

Definition err1 : error := mkError 1 "errgroup_test: 1".
Definition err2 : error := mkError 2 "errgroup_test: 2".

Definition stackTrace : string :=
  "goroutine 7 [running]:" +:+ String newline
    ("errgroup_test.terminate()" +:+ String newline "").

Definition returns (e : option error) : task := mkTask (ReturnErr e) stackTrace.
Definition panics (v : value) : task := mkTask (PanicWith v) stackTrace.
Definition goexits : task := mkTask RuntimeGoexit stackTrace.

(** Every goroutine of [n] runs to its end, in the order of their start. *)
Definition finish (i : nat) : list event := [Terminate i; Commit i; Done i].

(** The world after a run that goes through; the fresh zero group stands in
    for a run that does not. *)
Definition after (g : Group) (evs : list event) : World :=
  match run (init g) evs with Ok w => w | _ => init zeroGroup end.

(** [nil, err1, nil, err2]; the goroutine of err1 records before that of
    err2. *)
Definition fourTasks : list event :=
  [CallGo (returns None); CallGo (returns (Some err1));
   CallGo (returns None); CallGo (returns (Some err2));
   Terminate 3; Terminate 1; Terminate 0; Commit 0; Commit 1; Commit 3;
   Terminate 2; Commit 2; Done 0; Done 3; Done 2; Done 1].

(** A panicking task records before one that calls [runtime.Goexit]. *)
Definition panicThenGoexit : list event :=
  [CallGo (panics (VString "some string")); CallGo goexits;
   Terminate 1; Terminate 0; Commit 0; Commit 1; Done 1; Done 0].

(** The same tasks, recording in the other order. *)
Definition goexitThenPanic : list event :=
  [CallGo (panics (VString "some string")); CallGo goexits;
   Terminate 1; Terminate 0; Commit 1; Commit 0; Done 1; Done 0].

(** One failing and one succeeding task, all done. *)
Definition doomed : list event :=
  [CallGo (returns (Some err1)); CallGo (returns None)]
  ++ finish 0 ++ finish 1.

(** An error is recorded, then a panic; all done. *)
Definition errorThenPanic : list event :=
  [CallGo (returns (Some err1)); CallGo (panics (VString "some string"))]
  ++ finish 0 ++ finish 1.

(** One task, which succeeds. *)
Definition allFine : list event := CallGo (returns None) :: finish 0.

(** What the panicking task of the runs above leaves for [Wait]. *)
Definition wrapped : value :=
  VPanicStack (VString "some string")
              ("errgroup_test.terminate()" +:+ String newline "").

End Sample.

(** * Properties *)

Arguments cancel : simpl never.
Arguments doubleDeferSandwich : simpl never.
Arguments commit : simpl never.
Arguments Wait : simpl never.

(** ** The captured stack and the printed form *)

Section StackFacts.

Lemma runtime_Stack_short tr len : String.length tr < len → runtime_Stack tr len = String.length tr.
Proof. unfold runtime_Stack. lia. Qed.

Lemma growStack_total tr : ∀ fuel len,
  0 < len → String.length tr < fuel + len →
  ∃ n, growStack fuel tr len = Some n ∧ String.length tr < n.
Proof.
  induction fuel as [|fuel IH]; intros len Hpos Hlt; simpl.
  - rewrite runtime_Stack_short by lia.
    destruct (Nat.eqb_spec (String.length tr) len); [lia|]. eauto.
  - destruct (Nat.eqb_spec (runtime_Stack tr len) len) as [Heq|Hne].
    + apply IH; lia.
    + exists len. split; [done|]. unfold runtime_Stack in Hne. lia.
Qed.

Lemma sliceTo_all s : sliceTo s (String.length s) = s.
Proof. induction s as [|a s IH]; simpl; [done|]. by rewrite IH. Qed.

Lemma errorOrStack_error tr v : isError v = true → errorOrStack tr v = Some v.
Proof. unfold errorOrStack. by intros ->. Qed.

Lemma errorOrStack_wrap tr v :
  isError v = false → errorOrStack tr v = Some (VPanicStack v (trimFirstLine tr)).
Proof.
  unfold errorOrStack. intros ->.
  destruct (growStack_total tr (S (String.length tr)) (2 * 2 ^ 10)) as (n & -> & Hn).
  - simpl. lia.
  - lia.
  - simpl. rewrite runtime_Stack_short by done. by rewrite sliceTo_all.
Qed.

Lemma app_cons a s t : String a s +:+ t = String a (s +:+ t).
Proof. reflexivity. Qed.

Lemma IndexByte_line line rest :
  IndexByte line newline = None →
  IndexByte (line +:+ String newline rest) newline = Some (String.length line).
Proof.
  induction line as [|a line IH]; [done|].
  rewrite app_cons. simpl.
  destruct (Ascii.eqb a newline); [done|].
  destruct (IndexByte line newline); [done|]. intros _. by rewrite IH.
Qed.

Lemma sliceFrom_app line rest : sliceFrom (line +:+ rest) (String.length line) = rest.
Proof. induction line as [|a line IH]; [by destruct rest|done]. Qed.

Lemma trimFirstLine_line line rest :
  IndexByte line newline = None →
  trimFirstLine (line +:+ String newline rest) = rest.
Proof.
  intros H. unfold trimFirstLine. rewrite IndexByte_line by done.
  replace (line +:+ String newline rest) with ((line +:+ String newline "") +:+ rest).
  - replace (String.length line + 1) with (String.length (line +:+ String newline "")).
    + apply sliceFrom_app.
    + clear. induction line as [|a line IH]; [done|].
      rewrite app_cons. simpl. by f_equal.
  - clear. induction line as [|a line IH]; [done|].
    rewrite !app_cons. by f_equal.
Qed.

Lemma trimFirstLine_none s : IndexByte s newline = None → trimFirstLine s = s.
Proof. unfold trimFirstLine. by intros ->. Qed.

Lemma prefix_app s t : String.prefix s (s +:+ t) = true.
Proof.
  induction s as [|a s IH]; [by destruct t|].
  rewrite app_cons. simpl.
  destruct (ascii_dec a a); [done|congruence].
Qed.

Lemma prefix_refl s : String.prefix s s = true.
Proof.
  induction s as [|a s IH]; simpl; [done|].
  destruct (ascii_dec a a); [done|congruence].
Qed.

End StackFacts.

(** ** The invariant *)

Section Invariant.

Lemma bind_Ok {A B} (m : result A) (f : A → result B) b :
  m ≫= f = Ok b → ∃ a, m = Ok a ∧ f a = Ok b.
Proof. destruct m as [a| |]; [|done..]. intros H. by exists a. Qed.

Lemma first_snoc p l k :
  first p (l ++ [k]) =
  match first p l with
  | Some x => Some x
  | None => if p k then Some k else None
  end.
Proof.
  induction l as [|x l IH]; simpl; [done|].
  destruct (p x); [done|]. apply IH.
Qed.

Lemma live_snoc l gr : live (l ++ [gr]) = live l + (if isLive gr then 1 else 0).
Proof. induction l as [|x l IH]; simpl; [lia|]. rewrite IH. lia. Qed.

Lemma live_insert l : ∀ i gr gr',
  l !! i = Some gr →
  live (<[i := gr']> l) + (if isLive gr then 1 else 0)
  = live l + (if isLive gr' then 1 else 0).
Proof.
  induction l as [|x l IH]; intros [|i] gr gr' H; simpl in *; try done.
  - injection H as ->. lia.
  - specialize (IH i gr gr' H). lia.
Qed.

Lemma cancel_eq g c :
  cancel (g, c) =
  Ok (if cancelOnce g then g else set_cancelOnce g,
      if cancelOnce g then c
      else if bool_decide (cancelCtx g ≠ None) then S c else c).
Proof.
  unfold cancel. destruct (cancelOnce g) eqn:E; [done|].
  simpl. destruct (cancelCtx g) as [[]|]; simpl; done.
Qed.

Lemma sandwich_shape f s :
  doubleDeferSandwich f = Some s →
  sw_returned s = negb (sw_goexiting s) ∧
  (sw_goexiting s = true ↔ body f = RuntimeGoexit).
Proof.
  unfold doubleDeferSandwich. destruct (body f); simpl.
  - intros [= <-]. simpl. split; [done|]. split; done.
  - destruct (errorOrStack _ _); simpl; [|done]. intros [= <-]. simpl.
    split; [done|]. split; done.
  - destruct (errorOrStack _ _); simpl; [|done]. intros [= <-]. simpl.
    split; [done|]. split; done.
Qed.

Lemma commit_eq f s m :
  doubleDeferSandwich f = Some s →
  commit s m =
  match classify s with
  | KNothing => Ok m
  | KError e =>
      if errOnce (fst m) then Ok m
      else cancel (set_err (Some e) (set_errOnce (fst m)), snd m)
  | KPanic v =>
      if terminateOnce (fst m) then Ok m
      else cancel (set_panic v (set_terminateOnce (fst m)), snd m)
  | KGoexit =>
      if terminateOnce (fst m) then Ok m
      else cancel (set_goexit true (set_terminateOnce (fst m)), snd m)
  end.
Proof.
  intros H. destruct (sandwich_shape _ _ H) as [Hr _].
  unfold commit, classify. rewrite Hr.
  destruct (sw_goexiting s); simpl; [done|].
  destruct (notNil (sw_panicValue s)); simpl.
  - destruct (terminateOnce m.1); [done|]. by rewrite !cancel_eq.
  - destruct (sw_err s) as [e|]; simpl; [|done].
    destruct (errOnce m.1); [done|]. by rewrite !cancel_eq.
Qed.

Lemma Inv_init g : fresh g → Inv g (init g).
Proof. intros [-> | [-> | ->]]; split; reflexivity. Qed.

Local Opaque cancel.

Lemma Inv_step g0 w ev w' : Inv g0 w → step w ev = Ok w' → Inv g0 w'.
Proof.
  destruct w as [g gs c cm ws sw sr]. unfold Inv, stopCalls, recorded. simpl.
  intros [-> ->] Hstep. destruct ev as [f|i|i|i| | |]; unfold step, Go in Hstep;
    simpl in Hstep.
  - (* CallGo *)
    unfold wg_Add in Hstep. simpl in Hstep.
    destruct (Z.ltb_spec (Z.of_nat (live gs) + 1) 0); [lia|].
    simpl in Hstep. injection Hstep as <-. split; [|done].
    unfold groupOf, set_wg. simpl. rewrite live_snoc. simpl.
    f_equal. lia.
  - (* Terminate *)
    destruct (gs !! i) as [[f []]|] eqn:Hi; try done.
    destruct (doubleDeferSandwich f); [|done].
    injection Hstep as <-. split; [|done].
    unfold groupOf. simpl. f_equal.
    pose proof (live_insert gs i _ (mkGoroutine f AfterF) Hi) as Hl.
    simpl in Hl. lia.
  - (* Commit *)
    destruct (gs !! i) as [[f []]|] eqn:Hi; try done.
    destruct (doubleDeferSandwich f) as [s|] eqn:Hs; [|done].
    rewrite (commit_eq _ _ _ Hs) in Hstep.
    pose proof (live_insert gs i _ (mkGoroutine f BeforeDone) Hi) as Hl.
    simpl in Hl. assert (live (<[i:=mkGoroutine f BeforeDone]> gs) = live gs) as Hl' by lia.
    clear Hl Hi Hs.
    destruct (match classify s with KNothing => _ | _ => _ end)
      as [m| |] eqn:Hm; simpl in Hstep; try done.
    injection Hstep as <-. revert Hm.
    unfold Inv, memOf, groupOf, callsOf, cancelRequested, has, errOf, panicOf,
      goexitOf, stopCalls, recorded in *. simpl in *.
    rewrite Hl'. rewrite map_app. simpl. rewrite !first_snoc.
    set (R := map _ cm) in *.
    destruct (classify s) as [|e|v|]; simpl;
      destruct (first isTermination R) as [[]|];
      destruct (first isFailure R) as [[]|]; simpl;
      rewrite ?cancel_eq; simpl;
      destruct (0 <? sw + sr),
        (cancelOnWait g0 && negb (bool_decide (ws = []))),
        (bool_decide (cancelCtx g0 ≠ None));
      simpl; intros [= <-]; split; reflexivity.
  - (* Done *)
    destruct (gs !! i) as [[f []]|] eqn:Hi; try done.
    pose proof (live_insert gs i _ (mkGoroutine f Exited) Hi) as Hl.
    simpl in Hl.
    unfold wg_Done, wg_Add in Hstep. simpl in Hstep.
    destruct (Z.ltb_spec (Z.of_nat (live gs) + -1) 0); [lia|].
    simpl in Hstep. injection Hstep as <-. split; [|done].
    unfold groupOf, set_wg. simpl. f_equal. lia.
  - (* CallWait *)
    destruct (Wait _) as [[m out]| |] eqn:Hm; simpl in Hstep; try done.
    injection Hstep as <-. revert Hm.
    unfold Wait, wg_Wait, memOf. simpl.
    destruct (Z.eqb_spec (Z.of_nat (live gs)) 0) as [Hz|]; [|done].
    unfold Inv, memOf, groupOf, callsOf, cancelRequested, has, errOf, panicOf,
      goexitOf, stopCalls, recorded in *. simpl in *.
    set (R := map _ cm) in *.
    destruct (cancelOnWait g0); simpl; rewrite ?cancel_eq; simpl;
      destruct (first isTermination R) as [[| |[]|]|];
      destruct (first isFailure R) as [[]|]; simpl;
      destruct (bool_decide (ws = [])), (0 <? sw + sr),
        (bool_decide (cancelCtx g0 ≠ None)); simpl;
      intros [= <- <-]; split; reflexivity.
  - (* CallStop *)
    destruct (Stop_cancel _) as [m| |] eqn:Hm; simpl in Hstep; try done.
    injection Hstep as <-. revert Hm. unfold Stop_cancel, memOf. simpl. rewrite cancel_eq.
    unfold memOf, groupOf, callsOf, cancelRequested, has, errOf, panicOf,
      goexitOf, stopCalls, recorded in *. simpl in *.
    set (R := map _ cm) in *.
    destruct (first isTermination R) as [[]|];
      destruct (first isFailure R) as [[]|]; simpl;
      destruct (cancelOnWait g0 && negb (bool_decide (ws = []))),
        (bool_decide (cancelCtx g0 ≠ None)), (0 <? sw + sr); simpl;
      intros [= <-]; split; reflexivity.
  - (* StopReturns *)
    destruct sw as [|n]; [done|].
    unfold Stop_join, wg_Wait, memOf in Hstep. simpl in Hstep.
    destruct (Z.eqb_spec (Z.of_nat (live gs)) 0) as [Hz|]; [|done].
    simpl in Hstep. injection Hstep as <-.
    unfold groupOf, callsOf, cancelRequested, stopCalls. simpl.
    replace (n + S sr) with (S (n + sr)) by lia. done.
Qed.

Local Transparent cancel.

Lemma Linked_init g : Linked (init g).
Proof.
  split; simpl.
  - intros i s H. by apply elem_of_nil in H.
  - intros i gr H. by rewrite lookup_nil in H.
  - constructor.
Qed.

Lemma Linked_step w ev w' : Linked w → step w ev = Ok w' → Linked w'.
Proof.
  intros [Hc Hg Hn] Hstep.
  destruct ev as [f|i|i|i| | |]; unfold step, Go in Hstep.
  - (* CallGo *)
    destruct (wg_Add 1 (grp w)) as [g| |]; simpl in Hstep; try done.
    injection Hstep as <-. split; simpl; [| |done].
    + intros i s H. destruct (Hc i s H) as (gr & Hi & ?).
      exists gr. split; [|done]. by apply lookup_app_l_Some.
    + intros i gr Hi Hp. apply lookup_snoc_Some in Hi as [[_ Hi]|[_ <-]].
      * eauto.
      * done.
  - (* Terminate *)
    destruct (goroutines w !! i) as [[f []]|] eqn:Hi; try done.
    destruct (doubleDeferSandwich f) as [s0|]; [|done].
    injection Hstep as <-. split; simpl; [| |done].
    + intros j s H. destruct (Hc j s H) as (gr & Hj & Hs & Hp).
      exists gr. rewrite list_lookup_insert_ne; [done|].
      intros ->. rewrite Hi in Hj. by injection Hj as <-.
    + intros j gr Hj Hp. apply list_lookup_insert_Some in Hj as [(_ & <- & _)|[_ Hj]].
      * done.
      * eauto.
  - (* Commit *)
    destruct (goroutines w !! i) as [[f []]|] eqn:Hi; try done.
    destruct (doubleDeferSandwich f) as [s|] eqn:Hs; [|done].
    destruct (commit s (memOf w)) as [m| |]; simpl in Hstep; try done.
    injection Hstep as <-.
    assert (∀ s', (i, s') ∉ commits w) as Hfresh.
    { intros s' H. destruct (Hc i s' H) as (gr & Hj & _ & Hp).
      rewrite Hi in Hj. by injection Hj as <-. }
    split; simpl.
    + intros j s' H. apply elem_of_app in H as [H|H].
      * destruct (Hc j s' H) as (gr & Hj & Hs' & Hp).
        exists gr. rewrite list_lookup_insert_ne; [done|].
        intros ->. by apply Hfresh in H.
      * apply list_elem_of_singleton in H as [= -> ->].
        exists (mkGoroutine f BeforeDone). split; [|done].
        apply list_lookup_insert_eq. by apply lookup_lt_Some in Hi.
    + intros j gr Hj Hp. apply list_lookup_insert_Some in Hj as [(-> & <- & _)|[_ Hj]].
      * exists s. apply elem_of_app. right. by apply list_elem_of_singleton.
      * destruct (Hg j gr Hj Hp) as [s' H]. exists s'.
        apply elem_of_app. by left.
    + rewrite fmap_app. apply NoDup_app. split; [done|]. split.
      * intros j Hj Hj'. apply list_elem_of_singleton in Hj'. simpl in Hj'. subst j.
        apply list_elem_of_fmap in Hj as ([j s'] & Heq & H). simpl in Heq.
        subst j. by apply Hfresh in H.
      * apply NoDup_singleton.
  - (* Done *)
    destruct (goroutines w !! i) as [[f []]|] eqn:Hi; try done.
    destruct (wg_Done (grp w)) as [g| |]; simpl in Hstep; try done.
    injection Hstep as <-. split; simpl; [| |done].
    + intros j s H. destruct (Hc j s H) as (gr & Hj & Hs & Hp).
      destruct (decide (i = j)) as [<-|Hne].
      * rewrite Hi in Hj. injection Hj as <-.
        exists (mkGoroutine f Exited). split; [|done].
        apply list_lookup_insert_eq. by apply lookup_lt_Some in Hi.
      * exists gr. by rewrite list_lookup_insert_ne.
    + intros j gr Hj Hp. apply list_lookup_insert_Some in Hj as [(-> & <- & _)|[_ Hj]].
      * apply (Hg _ _ Hi). done.
      * eauto.
  - apply bind_Ok in Hstep as (r & _ & [= <-]). by split.
  - apply bind_Ok in Hstep as (m & _ & [= <-]). by split.
  - destruct (stopsWaiting w); [done|].
    apply bind_Ok in Hstep as (m & _ & [= <-]). by split.
Qed.

End Invariant.

(** ** Worlds reached from a fresh group *)

Section Reachable.

Lemma run_snoc w evs ev : run w (evs ++ [ev]) = (run w evs ≫= λ w', step w' ev).
Proof.
  revert w. induction evs as [|e evs IH]; intros w; simpl.
  - by destruct (step w ev).
  - destruct (step w e) as [w1| |]; simpl; [apply IH|done..].
Qed.

Lemma launched_snoc evs ev : launched (evs ++ [ev]) = launched evs ++ launched [ev].
Proof. unfold launched. by rewrite omap_app. Qed.

Lemma fn_insert (gs : list goroutine) i f p p' :
  gs !! i = Some (mkGoroutine f p) →
  fn <$> <[i := mkGoroutine f p']> gs = fn <$> gs.
Proof.
  intros H. rewrite list_fmap_insert. simpl. apply list_insert_id.
  rewrite list_lookup_fmap, H. done.
Qed.

Lemma step_launched w ev w' :
  step w ev = Ok w' → fn <$> goroutines w' = (fn <$> goroutines w) ++ launched [ev].
Proof.
  intros Hstep. destruct ev as [f|i|i|i| | |]; unfold step, Go in Hstep; simpl;
    rewrite ?app_nil_r.
  - apply bind_Ok in Hstep as (g & _ & [= <-]). simpl. by rewrite fmap_app.
  - destruct (goroutines w !! i) as [[f []]|] eqn:Hi; try done.
    destruct (doubleDeferSandwich f); [|done]. injection Hstep as <-.
    simpl. by eapply fn_insert.
  - destruct (goroutines w !! i) as [[f []]|] eqn:Hi; try done.
    destruct (doubleDeferSandwich f); [|done].
    apply bind_Ok in Hstep as (m & _ & [= <-]). simpl. by eapply fn_insert.
  - destruct (goroutines w !! i) as [[f []]|] eqn:Hi; try done.
    apply bind_Ok in Hstep as (m & _ & [= <-]). simpl. by eapply fn_insert.
  - by apply bind_Ok in Hstep as (m & _ & [= <-]).
  - by apply bind_Ok in Hstep as (m & _ & [= <-]).
  - destruct (stopsWaiting w); [done|].
    by apply bind_Ok in Hstep as (m & _ & [= <-]).
Qed.

(** Everything known about a world reached from a fresh group. *)
Lemma run_reaches g evs w :
  fresh g → run (init g) evs = Ok w →
  Inv g w ∧ Linked w ∧ fn <$> goroutines w = launched evs.
Proof.
  intros Hg. revert w. induction evs as [|ev evs IH] using rev_ind; intros w.
  - intros [= <-]. split; [by apply Inv_init|]. split; [apply Linked_init|done].
  - rewrite run_snoc. intros H. apply bind_Ok in H as (w0 & H0 & Hstep).
    destruct (IH _ H0) as (HI & HL & HF). split; [by eapply Inv_step|].
    split; [by eapply Linked_step|].
    rewrite launched_snoc, <- HF. by apply step_launched.
Qed.

Lemma live_pos (gs : list goroutine) i gr :
  gs !! i = Some gr → isLive gr = true → 0 < live gs.
Proof.
  revert i. induction gs as [|x gs IH]; intros [|i] H Hl; simpl in *; try done.
  - injection H as ->. rewrite Hl. lia.
  - specialize (IH i H Hl). lia.
Qed.

Lemma live_zero (gs : list goroutine) :
  live gs = 0 → Forall (λ gr, at_pc gr = Exited) gs.
Proof.
  induction gs as [|x gs IH]; simpl; intros H; constructor.
  - destruct x as [f []]; simpl in *; done || lia.
  - apply IH. lia.
Qed.

Lemma commit_total f s m : doubleDeferSandwich f = Some s → ∃ m', commit s m = Ok m'.
Proof.
  intros H. rewrite (commit_eq _ _ _ H).
  destruct m as [g c].
  destruct (classify s); simpl;
    [ | destruct (errOnce g) | destruct (terminateOnce g)
      | destruct (terminateOnce g)];
    rewrite ?cancel_eq; eauto.
Qed.

Lemma step_safe g0 w ev : Inv g0 w → step w ev ≠ Fault.
Proof.
  intros [Hg _]. destruct ev as [f|i|i|i| | |]; unfold step, Go.
  - unfold wg_Add. rewrite Hg. simpl.
    destruct (Z.ltb_spec (Z.of_nat (live (goroutines w)) + 1) 0); [lia|done].
  - destruct (goroutines w !! i) as [[f []]|]; try done.
    by destruct (doubleDeferSandwich f).
  - destruct (goroutines w !! i) as [[f []]|]; try done.
    destruct (doubleDeferSandwich f) as [s|] eqn:Hs; [|done].
    destruct (commit_total f s (memOf w) Hs) as [m ->]. done.
  - destruct (goroutines w !! i) as [[f []]|] eqn:Hi; try done.
    pose proof (live_pos _ _ _ Hi eq_refl).
    unfold wg_Done, wg_Add. rewrite Hg. simpl.
    destruct (Z.ltb_spec (Z.of_nat (live (goroutines w)) + -1) 0); [lia|done].
  - unfold Wait, wg_Wait, memOf. simpl.
    destruct (wg (grp w) =? 0)%Z; [|done]. simpl. 
    destruct (cancelOnWait (grp w)); rewrite ?cancel_eq; simpl;
      destruct (notNil _); try done; by destruct (goexit _).
  - unfold Stop_cancel, memOf. by rewrite cancel_eq.
  - destruct (stopsWaiting w); [done|]. unfold Stop_join, wg_Wait. simpl.
    by destruct (wg (grp w) =? 0)%Z.
Qed.

Lemma Wait_eq m :
  wg m.1 = 0%Z →
  Wait m =
  (cancel' ← (if cancelOnWait m.1 then cancel m else Ok m);
   Ok (cancel',
       if notNil (panic cancel'.1) then WaitPanics (panic cancel'.1)
       else if goexit cancel'.1 then WaitGoexits
       else WaitReturns (err cancel'.1))).
Proof.
  intros H. unfold Wait, wg_Wait. rewrite H. simpl.
  destruct (cancelOnWait m.1); [destruct m as [g c]; rewrite cancel_eq|]; simpl.
  - destruct (notNil _); [done|]. by destruct (goexit _).
  - destruct (notNil _); [done|]. by destruct (goexit _).
Qed.

(** What [Wait] does to a world in which the counter is zero. *)
Lemma step_CallWait w w' :
  step w CallWait = Ok w' →
  wg (grp w) = 0%Z ∧
  goroutines w' = goroutines w ∧ commits w' = commits w ∧
  stopsWaiting w' = stopsWaiting w ∧ stopsReturned w' = stopsReturned w ∧
  memOf w' = (if cancelOnWait (grp w)
              then (if cancelOnce (grp w) then grp w else set_cancelOnce (grp w),
                    if cancelOnce (grp w) then ctxCalls w
                    else if bool_decide (cancelCtx (grp w) ≠ None)
                         then S (ctxCalls w) else ctxCalls w)
              else memOf w) ∧
  waits w' = (if notNil (panic (grp w)) then WaitPanics (panic (grp w))
              else if goexit (grp w) then WaitGoexits
              else WaitReturns (err (grp w))) :: waits w.
Proof.
  unfold step. intros H. apply bind_Ok in H as ([m out] & Hm & [= <-]). simpl.
  assert (wg (grp w) = 0%Z) as Hz.
  { unfold Wait, wg_Wait in Hm. simpl in Hm.
    destruct (Z.eqb_spec (wg (grp w)) 0); done. }
  rewrite Wait_eq in Hm by done. unfold memOf in *. simpl in Hm.
  destruct (cancelOnWait (grp w)).
  - rewrite cancel_eq in Hm. simpl in Hm. injection Hm as <- <-.
    repeat split; try done. by destruct (cancelOnce (grp w)).
  - simpl in Hm. injection Hm as <- <-. done.
Qed.

Lemma first_elem p l k : first p l = Some k → k ∈ l ∧ p k = true.
Proof.
  induction l as [|x l IH]; simpl; [done|].
  destruct (p x) eqn:Hx.
  - intros [= ->]. split; [left|done].
  - intros H. destruct (IH H). split; [by right|done].
Qed.

Lemma first_app p l1 l2 :
  first p (l1 ++ l2) =
  match first p l1 with Some k => Some k | None => first p l2 end.
Proof.
  induction l1 as [|x l1 IH]; simpl; [done|]. by destruct (p x).
Qed.

Lemma first_none p l : (∀ k, k ∈ l → p k = false) → first p l = None.
Proof.
  induction l as [|x l IH]; simpl; [done|]. intros H.
  rewrite (H x) by left. apply IH. intros k Hk. apply H. by right.
Qed.

Lemma classify_panic s v :
  classify s = KPanic v →
  v = sw_panicValue s ∧ notNil v = true ∧ sw_goexiting s = false.
Proof.
  unfold classify. destruct (sw_goexiting s); [done|].
  destruct (notNil (sw_panicValue s)) eqn:Hn.
  - by intros [= <-].
  - by destruct (sw_err s).
Qed.

Lemma recorded_elem w k :
  k ∈ recorded w → ∃ i s, (i, s) ∈ commits w ∧ k = classify s.
Proof.
  unfold recorded. intros H. apply list_elem_of_fmap in H as ([i s] & -> & H).
  by exists i, s.
Qed.

Lemma recorded_panic_notNil w v :
  first isTermination (recorded w) = Some (KPanic v) → notNil v = true.
Proof.
  intros H. apply first_elem in H as [H _].
  apply recorded_elem in H as (i & s & _ & H). symmetry in H.
  by apply classify_panic in H as (_ & ? & _).
Qed.

Lemma live_exited gs :
  Forall (λ gr, at_pc gr = Exited) gs → live gs = 0.
Proof.
  induction 1 as [|gr gs Hgr _ IH]; simpl; [done|].
  unfold isLive. by rewrite Hgr, IH.
Qed.

(** C1. Once every task passed to [Go] has finished, a [Wait] on a group
    reached from a fresh one does end, and it ends in exactly one way, by
    priority: [runtime.Goexit] if the goexit flag is set; otherwise a panic
    with the captured value if there is one, whether or not an error was
    recorded as well; otherwise it returns the recorded error, which is nil
    if there is none.  No [Wait] ends in any other way.  [Wait] tests the
    panic slot before the flag; the two orders agree because no panic value
    is kept once the flag is set. *)
Theorem Wait_priority g evs w :
  fresh g → run (init g) evs = Ok w →
  (Forall (λ gr, at_pc gr = Exited) (goroutines w) →
   ∃ w', step w CallWait = Ok w' ∧
         waits w' =
           (if goexit (grp w) then WaitGoexits
            else if notNil (panic (grp w)) then WaitPanics (panic (grp w))
            else WaitReturns (err (grp w))) :: waits w) ∧
  (∀ w', step w CallWait = Ok w' →
         waits w' =
           (if goexit (grp w) then WaitGoexits
            else if notNil (panic (grp w)) then WaitPanics (panic (grp w))
            else WaitReturns (err (grp w))) :: waits w) ∧
  (goexit (grp w) = true → panic (grp w) = VNil).
Proof.
  intros Hg Hrun.
  destruct (run_reaches _ _ _ Hg Hrun) as ([HI _] & _ & _).
  assert (∀ w', step w CallWait = Ok w' →
         waits w' =
           (if goexit (grp w) then WaitGoexits
            else if notNil (panic (grp w)) then WaitPanics (panic (grp w))
            else WaitReturns (err (grp w))) :: waits w) as Hout.
  { intros w' Hstep.
    apply step_CallWait in Hstep as (_ & _ & _ & _ & _ & _ & ->).
    rewrite HI. simpl. unfold goexitOf, panicOf.
    by destruct (first isTermination (recorded w)) as [[| |v|]|]. }
  split; [|split; [done|]].
  - intros Hall. apply live_exited in Hall.
    assert (wg (grp w) = 0%Z) as Hz by (rewrite HI; simpl; lia).
    assert (∃ w', step w CallWait = Ok w') as [w' Hstep].
    { unfold step. rewrite Wait_eq by done. unfold memOf. simpl.
      destruct (cancelOnWait (grp w)); rewrite ?cancel_eq; simpl;
        by eexists. }
    exists w'. split; [done|]. by apply Hout.
  - rewrite HI. simpl. unfold goexitOf, panicOf.
    by destruct (first isTermination (recorded w)) as [[| |v|]|].
Qed.

(** C10. In every world reached from a fresh group at most one of the panic
    slot and the goexit flag is set, and which one is decided by the first
    goroutine that recorded a panic or a Goexit: the other kind leaves no
    trace in the group. *)
Theorem panic_goexit_exclusive g evs w :
  fresh g → run (init g) evs = Ok w →
  (panic (grp w) = VNil ∨ goexit (grp w) = false) ∧
  terminateOnce (grp w) = has isTermination (recorded w) ∧
  match first isTermination (recorded w) with
  | Some (KPanic v) =>
      panic (grp w) = v ∧ notNil v = true ∧ goexit (grp w) = false
  | Some KGoexit => panic (grp w) = VNil ∧ goexit (grp w) = true
  | _ => panic (grp w) = VNil ∧ goexit (grp w) = false
  end.
Proof.
  intros Hg Hrun.
  destruct (run_reaches _ _ _ Hg Hrun) as ([HI _] & _ & _).
  rewrite HI. simpl. unfold goexitOf, panicOf.
  destruct (first isTermination (recorded w)) as [[| |v|]|] eqn:Hf;
    repeat split; auto.
  by apply (recorded_panic_notNil w).
Qed.

(** C8. The bound cancel function is called at most once in the life of a
    group, whatever asks for cancellation and however often: a call of
    [cancel] after the first changes nothing and calls nothing. *)
Theorem cancel_once g evs w :
  fresh g → run (init g) evs = Ok w →
  ctxCalls w ≤ 1 ∧
  (ctxCalls w = 1 → cancelOnce (grp w) = true) ∧
  (∀ m, cancelOnce m.1 = true → cancel m = Ok m) ∧
  (∀ m, cancel (memOf w) = Ok m → cancel m = Ok m ∧ m.2 ≤ 1).
Proof.
  intros Hg Hrun.
  destruct (run_reaches _ _ _ Hg Hrun) as ([HI HC] & _ & _).
  assert (ctxCalls w ≤ 1 ∧ (ctxCalls w = 1 → cancelOnce (grp w) = true))
    as [Hle Hone].
  { rewrite HC, HI. unfold callsOf. simpl.
    destruct (cancelRequested _ _ _ _); simpl; [|split; [lia|done]].
    split; [|done]. destruct (bool_decide _); lia. }
  assert (∀ m, cancelOnce m.1 = true → cancel m = Ok m) as Hidem.
  { intros [g' c'] H. rewrite cancel_eq. simpl in H. by rewrite H. }
  split; [done|]. split; [done|]. split; [done|]. intros m H. split.
  - apply Hidem. revert H. unfold memOf. rewrite cancel_eq. intros [= <-].
    simpl. by destruct (cancelOnce (grp w)) eqn:E.
  - revert H. unfold memOf. rewrite cancel_eq. intros [= <-]. simpl.
    destruct (cancelOnce (grp w)) eqn:E; [done|].
    destruct (bool_decide _); [|lia].
    destruct (ctxCalls w) as [|[|n]]; [lia| |lia].
    specialize (Hone eq_refl). congruence.
Qed.

Lemma no_tasks_no_commits g evs w :
  fresh g → run (init g) evs = Ok w → launched evs = [] →
  goroutines w = [] ∧ commits w = [].
Proof.
  intros Hg Hrun Hl.
  destruct (run_reaches _ _ _ Hg Hrun) as (_ & [Hc _ _] & Hf).
  rewrite Hl in Hf. apply fmap_nil_inv in Hf. split; [done|].
  destruct (commits w) as [|[i s] l]; [done|].
  destruct (Hc i s) as (gr & Hi & _); [left|].
  by rewrite Hf, lookup_nil in Hi.
Qed.

(** C9. The zero Group is valid.  However it is used, no step runs into a
    run-time panic of the package, [cancel] finds no function to call and
    calls none; and as long as no task has been launched, [Wait] goes
    through and returns nil. *)
Theorem zero_group_valid evs w :
  run (init zeroGroup) evs = Ok w →
  cancelCtx (grp w) = None ∧
  ctxCalls w = 0 ∧
  (∀ ev, step w ev ≠ Fault) ∧
  cancel (memOf w) =
    Ok (if cancelOnce (grp w) then grp w else set_cancelOnce (grp w), 0) ∧
  (launched evs = [] →
   ∃ w', step w CallWait = Ok w' ∧ waits w' = WaitReturns None :: waits w).
Proof.
  intros Hrun. assert (fresh zeroGroup) as Hg by by left.
  destruct (run_reaches _ _ _ Hg Hrun) as (HI & HL & Hf).
  pose proof HI as [Hgrp Hcalls].
  assert (cancelCtx (grp w) = None) as Hctx by by rewrite Hgrp.
  assert (ctxCalls w = 0) as H0.
  { rewrite Hcalls. unfold callsOf. simpl. by rewrite andb_false_r. }
  split; [done|]. split; [done|]. split; [intros ev; by eapply step_safe|].
  split.
  - unfold memOf. rewrite cancel_eq, Hctx, H0. simpl.
    by destruct (cancelOnce (grp w)).
  - intros Hl.
    destruct (no_tasks_no_commits _ _ _ Hg Hrun Hl) as [Hgs Hcm].
    unfold step. rewrite Wait_eq; unfold memOf; simpl.
    + rewrite Hgrp. simpl. unfold recorded. rewrite Hcm. simpl.
      eexists. split; done.
    + rewrite Hgrp. simpl. by rewrite Hgs.
Qed.

Lemma fresh_cancelOnWait g : fresh g → (cancelOnWait g = true ↔ g = WithContext).
Proof. intros [-> | [-> | ->]]; split; done. Qed.

(** C6. [Wait] asks for cancellation exactly when the group comes from
    [WithContext], and then always, whatever the tasks did.  For any other
    group [Wait] leaves the group and the context as they are; a context
    made by [New] is cancelled only if [Stop] was called or a goroutine
    recorded an error, a panic or a Goexit. *)
Theorem Wait_cancels_iff_WithContext g evs w w' :
  fresh g → run (init g) evs = Ok w → step w CallWait = Ok w' →
  (cancelOnWait (grp w) = true ↔ g = WithContext) ∧
  (g = WithContext → cancelOnce (grp w') = true ∧ ctxCalls w' = 1) ∧
  (g ≠ WithContext → grp w' = grp w ∧ ctxCalls w' = ctxCalls w) ∧
  (g = New → ctxCalls w' = 1 →
   0 < stopCalls w ∨ has isTermination (recorded w) = true
   ∨ has isFailure (recorded w) = true).
Proof.
  intros Hg Hrun Hstep.
  destruct (run_reaches _ _ _ Hg Hrun) as ([HI HC] & _ & _).
  assert (Inv g w') as [_ HC'].
  { eapply Inv_step; [|done]. by split. }
  pose proof (fresh_cancelOnWait g Hg) as Hiff.
  apply step_CallWait in Hstep as (_ & _ & Hcm & Hsw & Hsr & Hmem & Hws).
  assert (cancelOnWait (grp w) = cancelOnWait g) as Hcw by by rewrite HI.
  rewrite Hcw in *. split; [done|]. split; [|split].
  - intros ->. simpl in Hmem. split.
    + change (cancelOnce (memOf w').1 = true). rewrite Hmem. simpl.
      by destruct (cancelOnce (grp w)) eqn:E.
    + rewrite HC'. unfold callsOf, cancelRequested. rewrite Hws. simpl.
      by rewrite orb_true_r.
  - intros Hne. destruct (cancelOnWait g) eqn:E.
    + destruct Hne. by apply Hiff.
    + by injection Hmem as -> ->.
  - intros ->. simpl in Hmem. injection Hmem as _ ->. rewrite HC.
    unfold callsOf, cancelRequested. simpl. rewrite orb_false_r.
    destruct (has isTermination _); [auto|].
    destruct (has isFailure _); [auto|]. simpl.
    destruct (Nat.ltb_spec 0 (stopCalls w)); [auto|done].
Qed.

Lemma step_CallStop w :
  step w CallStop =
  Ok (mkWorld (if cancelOnce (grp w) then grp w else set_cancelOnce (grp w))
              (goroutines w)
              (if cancelOnce (grp w) then ctxCalls w
               else if bool_decide (cancelCtx (grp w) ≠ None)
                    then S (ctxCalls w) else ctxCalls w)
              (commits w) (waits w) (S (stopsWaiting w)) (stopsReturned w)).
Proof. unfold step, Stop_cancel, memOf. by rewrite cancel_eq. Qed.

Lemma step_StopReturns w n :
  stopsWaiting w = S n →
  step w StopReturns =
  if (wg (grp w) =? 0)%Z
  then Ok (mkWorld (grp w) (goroutines w) (ctxCalls w) (commits w) (waits w)
                   n (S (stopsReturned w)))
  else Blocked.
Proof.
  intros H. unfold step, Stop_join, wg_Wait, memOf. rewrite H. simpl.
  by destruct (wg (grp w) =? 0)%Z.
Qed.

(** C7. [Stop] asks for cancellation whatever the state of the group, then
    waits for the counter to be zero, and returns exactly when it is.  It
    reads and changes none of the outcome slots and reports nothing.  A
    second [Stop] changes neither the group nor the context, and a [Stop]
    after a [Wait] that returned finds the counter at zero already.  Asking
    for cancellation is calling the bound cancel function: once [Stop] is
    past its first statement that function has been called, by this [Stop]
    if by nothing before; only the zero group, which has none, is left
    without a call. *)
Theorem Stop_cancels_and_joins g evs w :
  fresh g → run (init g) evs = Ok w →
  ∃ w1,
    step w CallStop = Ok w1 ∧
    cancelOnce (grp w1) = true ∧ ctxCalls w1 ≤ 1 ∧
    (err (grp w1) = err (grp w) ∧ errOnce (grp w1) = errOnce (grp w) ∧
     panic (grp w1) = panic (grp w) ∧ goexit (grp w1) = goexit (grp w) ∧
     terminateOnce (grp w1) = terminateOnce (grp w) ∧
     wg (grp w1) = wg (grp w) ∧ waits w1 = waits w) ∧
    (wg (grp w) = 0%Z →
     ∃ w2, step w1 StopReturns = Ok w2 ∧ grp w2 = grp w1 ∧
           ctxCalls w2 = ctxCalls w1 ∧ waits w2 = waits w) ∧
    (wg (grp w) ≠ 0%Z → step w1 StopReturns = Blocked) ∧
    (∃ w3, step w1 CallStop = Ok w3 ∧ grp w3 = grp w1 ∧
           ctxCalls w3 = ctxCalls w1 ∧ waits w3 = waits w) ∧
    (∀ evs0, evs = evs0 ++ [CallWait] → wg (grp w) = 0%Z) ∧
    (g ≠ zeroGroup → ctxCalls w1 = 1) ∧
    (g = zeroGroup → ctxCalls w1 = 0) ∧
    (cancelOnce (grp w) = false → g ≠ zeroGroup →
     ctxCalls w = 0 ∧ ctxCalls w1 = 1) ∧
    (cancelOnce (grp w) = true → ctxCalls w1 = ctxCalls w).
Proof.
  intros Hg Hrun. rewrite step_CallStop.
  set (w1 := mkWorld _ _ _ _ _ _ _). exists w1.
  assert (step w CallStop = Ok w1) as Hstop by apply step_CallStop.
  assert (cancelOnce (grp w1) = true) as Hc.
  { simpl. by destruct (cancelOnce (grp w)) eqn:E. }
  assert (wg (grp w1) = wg (grp w)) as Hwg.
  { simpl. by destruct (cancelOnce (grp w)). }
  assert (ctxCalls w1 = if bool_decide (cancelCtx g ≠ None) then 1 else 0)
    as Hfired.
  { assert (run (init g) (evs ++ [CallStop]) = Ok w1) as Hrun'.
    { by rewrite run_snoc, Hrun. }
    destruct (run_reaches _ _ _ Hg Hrun') as ([_ HC] & _ & _).
    rewrite HC. unfold callsOf, cancelRequested, stopCalls. simpl.
    by rewrite orb_true_r. }
  assert (cancelOnce (grp w) = false → ctxCalls w = 0) as Hbefore.
  { destruct (run_reaches _ _ _ Hg Hrun) as ([HG HC] & _ & _).
    rewrite HC, HG. unfold callsOf. simpl. by intros ->. }
  split; [done|]. split; [done|]. split.
  { rewrite Hfired. destruct (bool_decide (cancelCtx g ≠ None)); lia. }
  split; [simpl; by destruct (cancelOnce (grp w))|].
  split; [|split; [|split; [|split; [|split; [|split; [|split]]]]]].
  - intros Hz. rewrite (step_StopReturns w1 (stopsWaiting w)) by done.
    rewrite Hwg, Hz. simpl. by eexists.
  - intros Hnz. rewrite (step_StopReturns w1 (stopsWaiting w)) by done.
    rewrite Hwg. by destruct (Z.eqb_spec (wg (grp w)) 0).
  - rewrite step_CallStop, Hc. by eexists.
  - intros evs0 ->. rewrite run_snoc in Hrun.
    apply bind_Ok in Hrun as (w0 & _ & Hstep).
    apply step_CallWait in Hstep as (Hz & _ & _ & _ & _ & Hmem & _).
    change (wg (memOf w).1 = 0%Z). rewrite Hmem.
    destruct (cancelOnWait (grp w0)); [|done].
    by destruct (cancelOnce (grp w0)).
  - intros Hne. rewrite Hfired.
    by destruct Hg as [-> | [-> | ->]].
  - intros ->. by rewrite Hfired.
  - intros Hc0 Hne. split; [by apply Hbefore|]. rewrite Hfired.
    by destruct Hg as [-> | [-> | ->]].
  - intros Hc1. simpl. by rewrite Hc1.
Qed.

(** C5. The counter of the group is the number of goroutines that have not
    run [wg.Done] yet, and a goroutine runs [wg.Done] only after it has
    recorded its outcome.  So when [Wait] gets past its barrier, every task
    passed to [Go] so far has run to its end and its outcome is recorded. *)
Theorem Wait_joins_every_task g evs w :
  fresh g → run (init g) evs = Ok w →
  wg (grp w) = Z.of_nat (live (goroutines w)) ∧
  fn <$> goroutines w = launched evs ∧
  (∀ i w2, step w (Done i) = Ok w2 →
     ∃ s, (i, s) ∈ commits w ∧ wg (grp w2) = (wg (grp w) - 1)%Z) ∧
  (∀ i gr, goroutines w !! i = Some gr → at_pc gr = Exited →
     ∃ s, doubleDeferSandwich (fn gr) = Some s ∧ (i, s) ∈ commits w) ∧
  (∀ w', step w CallWait = Ok w' →
     fn <$> goroutines w' = launched evs ∧
     Forall (λ gr, at_pc gr = Exited) (goroutines w') ∧
     ∀ i gr, goroutines w' !! i = Some gr →
       ∃ s, doubleDeferSandwich (fn gr) = Some s ∧ (i, s) ∈ commits w').
Proof.
  intros Hg Hrun.
  destruct (run_reaches _ _ _ Hg Hrun) as ([HI _] & [Hc Hgo _] & Hf).
  assert (wg (grp w) = Z.of_nat (live (goroutines w))) as Hwg by by rewrite HI.
  assert (∀ i gr, goroutines w !! i = Some gr → hasCommitted (at_pc gr) = true →
            ∃ s, doubleDeferSandwich (fn gr) = Some s ∧ (i, s) ∈ commits w)
    as Hrec.
  { intros i gr Hi Hp. destruct (Hgo i gr Hi Hp) as [s Hs].
    destruct (Hc i s Hs) as (gr' & Hi' & Hs' & _).
    rewrite Hi in Hi'. injection Hi' as <-. eauto. }
  split; [done|]. split; [done|]. split; [|split].
  - intros i w2 Hstep. unfold step, Go in Hstep.
    destruct (goroutines w !! i) as [[f []]|] eqn:Hi; try done.
    apply bind_Ok in Hstep as (g' & Hd & [= <-]). simpl.
    destruct (Hrec i _ Hi eq_refl) as (s & _ & Hs). exists s. split; [done|].
    unfold wg_Done, wg_Add in Hd.
    destruct (wg (grp w) + -1 <? 0)%Z; [done|]. injection Hd as <-.
    simpl. lia.
  - intros i gr Hi Hp. apply (Hrec i gr Hi). by rewrite Hp.
  - intros w' Hstep.
    apply step_CallWait in Hstep as (Hz & -> & -> & _).
    split; [done|].
    assert (Forall (λ gr, at_pc gr = Exited) (goroutines w)) as Hall.
    { apply live_zero. lia. }
    split; [done|]. intros i gr Hi. apply (Hrec i gr Hi).
    by rewrite (Forall_lookup_1 _ _ _ _ Hall Hi).
Qed.

Lemma errorOrStack_notNil tr v r : errorOrStack tr v = Some r → notNil r = true.
Proof.
  destruct (isError v) eqn:E.
  - rewrite errorOrStack_error by done. intros [= <-]. by destruct v.
  - rewrite errorOrStack_wrap by done. by intros [= <-].
Qed.

Lemma classify_of_body f s :
  doubleDeferSandwich f = Some s →
  match body f with
  | ReturnErr (Some e) => classify s = KError e
  | ReturnErr None => classify s = KNothing
  | PanicWith v =>
      errorOrStack (trace f) v = Some (sw_panicValue s) ∧
      classify s = KPanic (sw_panicValue s)
  | RuntimeGoexit => classify s = KGoexit
  end.
Proof.
  unfold doubleDeferSandwich. destruct (body f) as [[e|]|v|]; simpl.
  - by intros [= <-].
  - by intros [= <-].
  - destruct (errorOrStack (trace f) v) as [r|] eqn:Hr; simpl; [|done].
    intros [= <-]. simpl. split; [done|]. unfold classify. simpl.
    by rewrite (errorOrStack_notNil _ _ _ Hr).
  - destruct (errorOrStack (trace f) VNil) as [r|] eqn:Hr; simpl; [|done].
    by intros [= <-].
Qed.

Lemma step_commits w ev w' :
  step w ev = Ok w' → ∃ l, commits w' = commits w ++ l.
Proof.
  intros Hstep. destruct ev as [f|i|i|i| | |]; unfold step, Go in Hstep.
  - apply bind_Ok in Hstep as (g & _ & [= <-]). exists []. simpl.
    by rewrite app_nil_r.
  - destruct (goroutines w !! i) as [[f []]|]; try done.
    destruct (doubleDeferSandwich f); [|done]. injection Hstep as <-.
    exists []. simpl. by rewrite app_nil_r.
  - destruct (goroutines w !! i) as [[f []]|]; try done.
    destruct (doubleDeferSandwich f) as [s|]; [|done].
    apply bind_Ok in Hstep as (m & _ & [= <-]). by exists [(i, s)].
  - destruct (goroutines w !! i) as [[f []]|]; try done.
    apply bind_Ok in Hstep as (m & _ & [= <-]). exists []. simpl.
    by rewrite app_nil_r.
  - apply bind_Ok in Hstep as (m & _ & [= <-]). exists []. simpl.
    by rewrite app_nil_r.
  - apply bind_Ok in Hstep as (m & _ & [= <-]). exists []. simpl.
    by rewrite app_nil_r.
  - destruct (stopsWaiting w); [done|].
    apply bind_Ok in Hstep as (m & _ & [= <-]). exists []. simpl.
    by rewrite app_nil_r.
Qed.

(** The first kind in the history that passes a test, by position. *)
Lemma first_at p w l1 i s l2 :
  commits w = l1 ++ (i, s) :: l2 →
  (∀ c, c ∈ l1 → p (classify c.2) = false) →
  p (classify s) = true →
  first p (recorded w) = Some (classify s).
Proof.
  intros Hcm Hl1 Hs. unfold recorded. rewrite Hcm, map_app, first_app.
  rewrite first_none.
  - simpl. by rewrite Hs.
  - intros k Hk. apply list_elem_of_fmap in Hk as (c & -> & Hc). by apply Hl1.
Qed.

(** The commit of a goroutine whose task is known. *)
Lemma commit_of_task g evs w i s :
  fresh g → run (init g) evs = Ok w → (i, s) ∈ commits w →
  ∃ f, launched evs !! i = Some f ∧ doubleDeferSandwich f = Some s.
Proof.
  intros Hg Hrun Hi.
  destruct (run_reaches _ _ _ Hg Hrun) as (_ & [Hc _ _] & Hf).
  destruct (Hc i s Hi) as (gr & Hgr & Hs & _). exists (fn gr).
  split; [|done]. by rewrite <- Hf, list_lookup_fmap, Hgr.
Qed.

Lemma errOf_app R l e : errOf R = Some e → errOf (R ++ l) = Some e.
Proof.
  unfold errOf. rewrite first_app.
  by destruct (first isFailure R) as [[]|].
Qed.

(** C2. The error slot holds the error of the first goroutine that recorded
    one; once set, no step changes it; and [Wait] returns it when no panic
    and no Goexit was recorded.  For tasks returning nil, err1, nil, err2
    where the goroutine of err1 records before that of err2, [Wait] returns
    err1. *)
Theorem first_error_wins g evs w :
  fresh g → run (init g) evs = Ok w →
  err (grp w) = errOf (recorded w) ∧
  errOnce (grp w) = has isFailure (recorded w) ∧
  (∀ l1 i s l2 e,
     commits w = l1 ++ (i, s) :: l2 → classify s = KError e →
     (∀ c, c ∈ l1 → isFailure (classify c.2) = false) →
     err (grp w) = Some e) ∧
  (∀ e ev w', err (grp w) = Some e → step w ev = Ok w' →
     err (grp w') = Some e) ∧
  (∀ w', has isTermination (recorded w) = false →
     step w CallWait = Ok w' →
     waits w' = WaitReturns (err (grp w)) :: waits w) ∧
  (∀ e1 e2 t0 t1 t2 t3 l1 s l2 w',
     launched evs = [mkTask (ReturnErr None) t0;
                     mkTask (ReturnErr (Some e1)) t1;
                     mkTask (ReturnErr None) t2;
                     mkTask (ReturnErr (Some e2)) t3] →
     commits w = l1 ++ (1, s) :: l2 → 3 ∉ l1.*1 →
     step w CallWait = Ok w' →
     waits w' = WaitReturns (Some e1) :: waits w).
Proof.
  intros Hg Hrun.
  destruct (run_reaches _ _ _ Hg Hrun) as (HI & HL & Hf).
  pose proof HI as [Hgrp _].
  assert (err (grp w) = errOf (recorded w)) as Herr by by rewrite Hgrp.
  assert (∀ l1 i s l2 e,
     commits w = l1 ++ (i, s) :: l2 → classify s = KError e →
     (∀ c, c ∈ l1 → isFailure (classify c.2) = false) →
     err (grp w) = Some e) as Hpos.
  { intros l1 i s l2 e Hcm Hs Hl1. rewrite Herr. unfold errOf.
    rewrite (first_at isFailure w l1 i s l2), Hs; try done. by rewrite Hs. }
  assert (∀ w', has isTermination (recorded w) = false →
     step w CallWait = Ok w' →
     waits w' = WaitReturns (err (grp w)) :: waits w) as Hwait.
  { intros w' Hno Hstep.
    apply step_CallWait in Hstep as (_ & _ & _ & _ & _ & _ & ->).
    rewrite Hgrp. simpl. unfold panicOf, goexitOf. unfold has in Hno.
    by destruct (first isTermination (recorded w)). }
  split; [done|]. split; [by rewrite Hgrp|]. split; [done|].
  split; [|split; [done|]].
  - intros e ev w' He Hstep.
    destruct (Inv_step _ _ _ _ HI Hstep) as [Hgrp' _].
    destruct (step_commits _ _ _ Hstep) as [l Hl].
    rewrite Hgrp'. simpl. unfold recorded. rewrite Hl, map_app.
    apply errOf_app. by rewrite <- He, Herr.
  - intros e1 e2 t0 t1 t2 t3 l1 s l2 w' Hla Hcm H3 Hstep.
    assert (∀ j c, (j, c) ∈ commits w →
              (j = 0 ∨ j = 2) ∧ classify c = KNothing ∨
              j = 1 ∧ classify c = KError e1 ∨
              j = 3 ∧ classify c = KError e2) as Hall.
    { intros j c Hj.
      destruct (commit_of_task _ _ _ _ _ Hg Hrun Hj) as (f & Hfj & Hc).
      rewrite Hla in Hfj. apply classify_of_body in Hc.
      destruct j as [|[|[|[|j]]]]; simpl in Hfj; try done;
        injection Hfj as <-; simpl in Hc; auto. }
    assert (err (grp w) = Some e1) as He1.
    { apply (Hpos l1 1 s l2).
      - done.
      - destruct (Hall 1 s) as [[[|] _]|[[_ H]|[? _]]]; try done.
        rewrite Hcm. apply elem_of_app. right. left.
      - intros [j c] Hc. simpl.
        destruct (Hall j c) as [[_ ->]|[[-> _]|[-> _]]]; try done.
        + rewrite Hcm. apply elem_of_app. by left.
        + destruct HL as [_ _ Hnd]. rewrite Hcm, fmap_app in Hnd.
          apply NoDup_app in Hnd as (_ & Hnd & _).
          destruct (Hnd 1); [|left].
          by apply (list_elem_of_fmap_2 fst) in Hc.
        + destruct H3. by apply (list_elem_of_fmap_2 fst) in Hc. }
    rewrite <- He1. apply Hwait; [|done]. unfold has.
    rewrite first_none; [done|].
    intros k Hk. apply recorded_elem in Hk as (j & c & Hj & ->).
    by destruct (Hall j c Hj) as [[_ ->]|[[_ ->]|[_ ->]]].
Qed.

(** C3, as the code has it.  Of the goroutines that panic or call
    [runtime.Goexit], the first to record decides what [Wait] does: if it
    called [runtime.Goexit], the goexit flag is set, no panic is kept and
    [Wait] calls [runtime.Goexit]; if it panicked, its panic value is kept,
    the goexit flag stays unset and [Wait] panics with that value. *)
Theorem first_termination_wins g evs w w' l1 i s l2 f :
  fresh g → run (init g) evs = Ok w → step w CallWait = Ok w' →
  commits w = l1 ++ (i, s) :: l2 →
  (∀ c, c ∈ l1 → isTermination (classify c.2) = false) →
  launched evs !! i = Some f →
  match body f with
  | RuntimeGoexit =>
      goexit (grp w') = true ∧ panic (grp w') = VNil ∧
      waits w' = WaitGoexits :: waits w
  | PanicWith v =>
      ∃ r, errorOrStack (trace f) v = Some r ∧
           goexit (grp w') = false ∧ panic (grp w') = r ∧
           waits w' = WaitPanics r :: waits w
  | ReturnErr _ => True
  end.
Proof.
  intros Hg Hrun Hstep Hcm Hl1 Hf.
  destruct (run_reaches _ _ _ Hg Hrun) as (HI & HL & _).
  destruct (Inv_step _ _ _ _ HI Hstep) as [Hgrp' _].
  destruct HI as [Hgrp _].
  assert ((i, s) ∈ commits w) as Hi.
  { rewrite Hcm. apply elem_of_app. right. left. }
  destruct (commit_of_task _ _ _ _ _ Hg Hrun Hi) as (f' & Hf' & Hs).
  rewrite Hf in Hf'. injection Hf' as <-.
  apply classify_of_body in Hs.
  apply step_CallWait in Hstep as (_ & _ & Hcm' & _ & _ & _ & Hws).
  rewrite Hws, Hgrp', Hgrp. simpl. unfold recorded. rewrite Hcm'.
  fold (recorded w). unfold goexitOf, panicOf.
  destruct (body f) as [e|v|]; [done| |].
  - destruct Hs as [Hr Hs]. exists (sw_panicValue s). split; [done|].
    rewrite (first_at isTermination w l1 i s l2), Hs; try done.
    + by rewrite (errorOrStack_notNil _ _ _ Hr).
    + by rewrite Hs.
  - rewrite (first_at isTermination w l1 i s l2), Hs; try done.
    by rewrite Hs.
Qed.

(** C4. [errorOrStack] always yields a value, never nil.  A payload that
    implements [error] comes back unchanged.  Any other payload comes back in
    a [panicStack] with the captured trace, whose first line is cut off when
    the trace has one; it prints as the payload followed by the trace.  In
    both cases the printed form begins with that of the payload.  What
    [Wait] panics with is such a value, made from the payload of a task that
    panicked; with a single panicking task it is made from that payload. *)
Theorem errorOrStack_keeps_payload tr v :
  ∃ r, errorOrStack tr v = Some r ∧
    notNil r = true ∧
    (isError v = true → r = v) ∧
    (isError v = false →
       r = VPanicStack v (trimFirstLine tr) ∧
       Sprint r = panicStack_String v (trimFirstLine tr)) ∧
    (∀ line rest, IndexByte line newline = None →
       tr = line +:+ String newline rest → trimFirstLine tr = rest) ∧
    String.prefix (Sprint v) (Sprint r) = true ∧
    (∀ g, fresh g →
       ∃ w, run (init g) [CallGo (mkTask (PanicWith v) tr); Terminate 0;
                          Commit 0; Done 0; CallWait] = Ok w ∧
            waits w = [WaitPanics r]) ∧
    (∀ g evs w w' r', fresh g → run (init g) evs = Ok w →
       step w CallWait = Ok w' → waits w' = WaitPanics r' :: waits w →
       ∃ i f v', launched evs !! i = Some f ∧ body f = PanicWith v' ∧
                 errorOrStack (trace f) v' = Some r').
Proof.
  assert (∃ r, errorOrStack tr v = Some r ∧
    (isError v = true → r = v) ∧
    (isError v = false → r = VPanicStack v (trimFirstLine tr)))
    as (r & Hr & Herr & Hwrap).
  { destruct (isError v) eqn:E.
    - exists v. by rewrite errorOrStack_error.
    - eexists. rewrite errorOrStack_wrap by done. by split. }
  pose proof (errorOrStack_notNil _ _ _ Hr) as Hnn.
  exists r. split; [done|]. split; [done|]. split; [done|].
  split; [|split; [|split; [|split]]].
  - intros E. by rewrite (Hwrap E).
  - intros line rest Hline ->. by apply trimFirstLine_line.
  - destruct (isError v) eqn:E.
    + rewrite Herr by done. apply prefix_refl.
    + rewrite Hwrap by done. simpl. apply prefix_app.
  - intros g Hg.
    assert (doubleDeferSandwich (mkTask (PanicWith v) tr)
            = Some (mkSandwich r None false true)) as Hs.
    { unfold doubleDeferSandwich. simpl. by rewrite Hr. }
    assert (∀ m, terminateOnce m.1 = false → cancelOnce m.1 = false →
              commit (mkSandwich r None false true) m
              = Ok (set_cancelOnce (set_panic r (set_terminateOnce m.1)),
                    if bool_decide (cancelCtx m.1 ≠ None) then S m.2 else m.2))
      as Hcommit.
    { intros [g0 c0] Ht Hc. simpl in *. unfold commit. simpl.
      rewrite Hnn, Ht, cancel_eq. simpl. by rewrite Hc. }
    destruct Hg as [-> | [-> | ->]]; simpl; rewrite Hs; simpl; rewrite Hs;
      simpl; rewrite Hcommit by done; simpl; rewrite Wait_eq by done;
      simpl; rewrite ?cancel_eq; simpl; rewrite Hnn; by eexists.
  - intros g evs w w' r' Hg Hrun Hstep Hws.
    destruct (run_reaches _ _ _ Hg Hrun) as ([Hgrp _] & _ & _).
    apply step_CallWait in Hstep as (_ & _ & _ & _ & _ & _ & Hws').
    rewrite Hws' in Hws. clear Hws'. rewrite Hgrp in Hws. simpl in Hws.
    unfold panicOf, goexitOf in Hws.
    destruct (first isTermination (recorded w)) as [k|] eqn:Hk; [|done].
    assert (k = KPanic r' ) as ->.
    { destruct k as [| |r0|]; simpl in Hws; try done.
      destruct (notNil r0); [|done]. by injection Hws as ->. }
    apply first_elem in Hk as [Hk _].
    apply recorded_elem in Hk as (i & s & Hi & Hs).
    destruct (commit_of_task _ _ _ _ _ Hg Hrun Hi) as (f & Hf & Hd).
    pose proof (classify_of_body _ _ Hd) as Hb.
    exists i, f. destruct (body f) as [[e|]|v'|]; try congruence.
    exists v'. split; [done|]. split; [done|].
    destruct Hb as [Hb1 Hb2]. congruence.
Qed.

End Reachable.

(** ** The statements on concrete runs *)

Section Samples.
Import Sample.

Lemma fresh_zeroGroup : fresh zeroGroup.
Proof. by left. Qed.

Lemma fresh_New : fresh New.
Proof. right. by left. Qed.

Lemma fresh_WithContext : fresh WithContext.
Proof. right. by right. Qed.

Lemma run_after g evs :
  isOk (run (init g) evs) = true → run (init g) evs = Ok (after g evs).
Proof. unfold after. by destruct (run (init g) evs). Qed.

Lemma step_after g evs ev :
  isOk (run (init g) (evs ++ [ev])) = true →
  step (after g evs) ev = Ok (after g (evs ++ [ev])).
Proof.
  unfold after. rewrite run_snoc.
  destruct (run (init g) evs) as [w| |]; simpl; [|done..].
  by destruct (step w ev).
Qed.

Ltac evaluate := vm_compute; reflexivity.

(** From a statement [finished → ∃ w', step .. ∧ waits w' = ..] on a sample
    run, its conclusion with the outcome computed. *)
Ltac ends_with H :=
  let w' := fresh "w'" in
  let Hstep := fresh in
  let Hwaits := fresh in
  destruct H as (w' & Hstep & Hwaits);
  [ vm_compute; repeat constructor
  | exists w'; split; [exact Hstep | refine (eq_trans Hwaits _); evaluate] ].

(** Every way [Wait] can end, each on a run in which the tasks have
    finished: a Goexit recorded before a panic, a panic recorded before a
    Goexit, a panic recorded after an error, an error alone, no failure. *)
Lemma Wait_priority_witness :
  fresh New ∧
  Forall (λ gr, at_pc gr = Exited) (goroutines (after New goexitThenPanic)) ∧
  (∃ w', step (after New goexitThenPanic) CallWait = Ok w' ∧
         waits w' = [WaitGoexits]) ∧
  (∃ w', step (after New panicThenGoexit) CallWait = Ok w' ∧
         waits w' = [WaitPanics wrapped]) ∧
  (∃ w', step (after New errorThenPanic) CallWait = Ok w' ∧
         waits w' = [WaitPanics wrapped]) ∧
  (∃ w', step (after New doomed) CallWait = Ok w' ∧
         waits w' = [WaitReturns (Some err1)]) ∧
  (∃ w', step (after New allFine) CallWait = Ok w' ∧
         waits w' = [WaitReturns None]).
Proof.
  split; [exact fresh_New|].
  split; [vm_compute; repeat constructor|].
  split.
  { ends_with (proj1 (Wait_priority New goexitThenPanic
                        (after New goexitThenPanic) fresh_New
                        (run_after New goexitThenPanic eq_refl))). }
  split.
  { ends_with (proj1 (Wait_priority New panicThenGoexit
                        (after New panicThenGoexit) fresh_New
                        (run_after New panicThenGoexit eq_refl))). }
  split.
  { ends_with (proj1 (Wait_priority New errorThenPanic
                        (after New errorThenPanic) fresh_New
                        (run_after New errorThenPanic eq_refl))). }
  split.
  { ends_with (proj1 (Wait_priority New doomed (after New doomed) fresh_New
                        (run_after New doomed eq_refl))). }
  ends_with (proj1 (Wait_priority New allFine (after New allFine) fresh_New
                      (run_after New allFine eq_refl))).
Defined.

(** nil, err1, nil, err2 on the zero group: [Wait] returns err1. *)
Lemma first_error_wins_witness :
  fresh zeroGroup ∧
  run (init zeroGroup) fourTasks = Ok (after zeroGroup fourTasks) ∧
  err (grp (after zeroGroup fourTasks)) = Some err1 ∧
  waits (after zeroGroup (fourTasks ++ [CallWait]))
    = [WaitReturns (Some err1)].
Proof.
  split; [exact fresh_zeroGroup|].
  split; [apply run_after; evaluate|].
  assert (run (init zeroGroup) fourTasks = Ok (after zeroGroup fourTasks))
    as Hrun by (apply run_after; evaluate).
  destruct (first_error_wins zeroGroup fourTasks _ fresh_zeroGroup Hrun)
    as (Herr & _ & _ & _ & _ & Hfour).
  split; [refine (eq_trans Herr _); evaluate|].
  refine (eq_trans
            (Hfour err1 err2 stackTrace stackTrace stackTrace stackTrace
               [(0, mkSandwich VNil None false true)]
               (mkSandwich VNil (Some err1) false true)
               [(3, mkSandwich VNil (Some err2) false true);
                (2, mkSandwich VNil None false true)]
               (after zeroGroup (fourTasks ++ [CallWait])) _ _ _
               (step_after _ _ _ _)) _);
    try evaluate.
  simpl. intros H. apply list_elem_of_singleton in H. discriminate.
Defined.

(** The goroutine that calls [runtime.Goexit] records first: the flag is set
    and no panic is kept. *)
Lemma first_termination_wins_witness :
  fresh New ∧
  run (init New) goexitThenPanic = Ok (after New goexitThenPanic) ∧
  step (after New goexitThenPanic) CallWait
    = Ok (after New (goexitThenPanic ++ [CallWait])) ∧
  launched goexitThenPanic !! 1 = Some goexits ∧
  goexit (grp (after New (goexitThenPanic ++ [CallWait]))) = true ∧
  panic (grp (after New (goexitThenPanic ++ [CallWait]))) = VNil ∧
  waits (after New (goexitThenPanic ++ [CallWait])) = [WaitGoexits].
Proof.
  split; [exact fresh_New|].
  split; [apply run_after; evaluate|].
  split; [apply step_after; evaluate|].
  split; [evaluate|].
  assert (commits (after New goexitThenPanic)
          = [] ++ (1, mkSandwich (VPanicStack VNil
                       ("errgroup_test.terminate()" +:+ String newline ""))
                     None true false)
               :: [(0, mkSandwich wrapped None false true)]) as Hcm
    by evaluate.
  destruct (first_termination_wins New goexitThenPanic
              (after New goexitThenPanic)
              (after New (goexitThenPanic ++ [CallWait]))
              [] 1 _ _ goexits fresh_New
              (run_after New goexitThenPanic eq_refl)
              (step_after New goexitThenPanic CallWait eq_refl) Hcm)
    as (Hgo & Hpanic & Hwaits).
  - intros c Hc. by apply elem_of_nil in Hc.
  - evaluate.
  - split; [exact Hgo|]. split; [exact Hpanic|].
    refine (eq_trans Hwaits _). evaluate.
Defined.

(** A string payload is wrapped with the trace less its first line. *)
Lemma errorOrStack_keeps_payload_witness :
  ∃ r, errorOrStack stackTrace (VString "some string") = Some r ∧
       r = wrapped ∧
       String.prefix "some string" (Sprint r) = true.
Proof.
  destruct (errorOrStack_keeps_payload stackTrace (VString "some string"))
    as (r & Hr & _ & _ & Hwrap & _ & Hprefix & _).
  exists r. split; [exact Hr|]. split; [|exact Hprefix].
  refine (eq_trans (proj1 (Hwrap eq_refl)) _). evaluate.
Defined.

(** Two tasks on a group from [New]: both goroutines are gone when [Wait]
    is past its barrier. *)
Lemma Wait_joins_every_task_witness :
  fresh New ∧
  run (init New) doomed = Ok (after New doomed) ∧
  wg (grp (after New doomed)) = 0%Z ∧
  fn <$> goroutines (after New (doomed ++ [CallWait]))
    = [returns (Some err1); returns None] ∧
  Forall (λ gr, at_pc gr = Exited)
         (goroutines (after New (doomed ++ [CallWait]))).
Proof.
  split; [exact fresh_New|].
  split; [apply run_after; evaluate|].
  destruct (Wait_joins_every_task New doomed (after New doomed) fresh_New
              (run_after New doomed eq_refl))
    as (Hwg & _ & _ & _ & Hwait).
  split; [refine (eq_trans Hwg _); evaluate|].
  destruct (Hwait (after New (doomed ++ [CallWait]))
              (step_after New doomed CallWait eq_refl)) as (Hfn & Hall & _).
  split; [refine (eq_trans Hfn _); evaluate|exact Hall].
Defined.

(** A group from [WithContext] whose only task succeeds: [Wait] cancels. *)
Lemma Wait_cancels_iff_WithContext_witness :
  fresh WithContext ∧
  run (init WithContext) allFine = Ok (after WithContext allFine) ∧
  step (after WithContext allFine) CallWait
    = Ok (after WithContext (allFine ++ [CallWait])) ∧
  ctxCalls (after WithContext allFine) = 0 ∧
  cancelOnce (grp (after WithContext (allFine ++ [CallWait]))) = true ∧
  ctxCalls (after WithContext (allFine ++ [CallWait])) = 1.
Proof.
  split; [exact fresh_WithContext|].
  split; [apply run_after; evaluate|].
  split; [apply step_after; evaluate|].
  split; [evaluate|].
  destruct (Wait_cancels_iff_WithContext WithContext allFine
              (after WithContext allFine)
              (after WithContext (allFine ++ [CallWait]))
              fresh_WithContext (run_after WithContext allFine eq_refl)
              (step_after WithContext allFine CallWait eq_refl))
    as (_ & Hlegacy & _).
  exact (Hlegacy eq_refl).
Defined.

(** [Stop] after a [Wait] that returned nil on a group from [New]: the
    cancel function, not called so far, is called by [Stop]; the outcome of
    the [Wait] stays, and [Stop] returns. *)
Lemma Stop_cancels_and_joins_witness :
  fresh New ∧
  run (init New) (allFine ++ [CallWait])
    = Ok (after New (allFine ++ [CallWait])) ∧
  ∃ w1, step (after New (allFine ++ [CallWait])) CallStop = Ok w1 ∧
        ctxCalls (after New (allFine ++ [CallWait])) = 0 ∧
        ctxCalls w1 = 1 ∧
        err (grp w1) = None ∧ waits w1 = [WaitReturns None] ∧
        ∃ w2, step w1 StopReturns = Ok w2 ∧ grp w2 = grp w1.
Proof.
  split; [exact fresh_New|].
  split; [apply run_after; evaluate|].
  destruct (Stop_cancels_and_joins New (allFine ++ [CallWait])
              (after New (allFine ++ [CallWait])) fresh_New
              (run_after New (allFine ++ [CallWait]) eq_refl))
    as (w1 & Hstop & _ & _ & (Herr & _ & _ & _ & _ & _ & Hwaits)
        & Hjoin & _ & _ & Hafter & _ & _ & Hfires & _).
  exists w1. split; [exact Hstop|].
  assert (cancelOnce (grp (after New (allFine ++ [CallWait]))) = false)
    as Hlive by evaluate.
  assert (New ≠ zeroGroup) as Hbound by discriminate.
  destruct (Hfires Hlive Hbound) as [Hbefore Hfired].
  split; [exact Hbefore|]. split; [exact Hfired|].
  split; [refine (eq_trans Herr _); evaluate|].
  split; [refine (eq_trans Hwaits _); evaluate|].
  destruct (Hjoin (Hafter allFine eq_refl)) as (w2 & Hreturns & Hgrp & _).
  exists w2. split; [exact Hreturns|exact Hgrp].
Defined.

(** An error, two calls of [Stop] and a [Wait]: one call of the cancel
    function at most. *)
Lemma cancel_once_witness :
  fresh New ∧
  run (init New) (doomed ++ [CallStop; CallWait; CallStop])
    = Ok (after New (doomed ++ [CallStop; CallWait; CallStop])) ∧
  ctxCalls (after New (doomed ++ [CallStop; CallWait; CallStop])) ≤ 1.
Proof.
  split; [exact fresh_New|].
  split; [apply run_after; evaluate|].
  exact (proj1 (cancel_once New (doomed ++ [CallStop; CallWait; CallStop]) _
                  fresh_New
                  (run_after New (doomed ++ [CallStop; CallWait; CallStop])
                     eq_refl))).
Defined.

(** The zero group after a [Stop]: nothing was called, and [Wait] returns
    nil. *)
Lemma zero_group_valid_witness :
  run (init zeroGroup) [CallStop; StopReturns]
    = Ok (after zeroGroup [CallStop; StopReturns]) ∧
  ctxCalls (after zeroGroup [CallStop; StopReturns]) = 0 ∧
  ∃ w', step (after zeroGroup [CallStop; StopReturns]) CallWait = Ok w' ∧
        waits w' = [WaitReturns None].
Proof.
  split; [apply run_after; evaluate|].
  destruct (zero_group_valid [CallStop; StopReturns]
              (after zeroGroup [CallStop; StopReturns])
              (run_after zeroGroup [CallStop; StopReturns] eq_refl))
    as (_ & Hcalls & _ & _ & Hwait).
  split; [exact Hcalls|].
  destruct (Hwait eq_refl) as (w' & Hstep & Hwaits).
  exists w'. split; [exact Hstep|]. refine (eq_trans Hwaits _). evaluate.
Defined.

(** A panic recorded before a Goexit: the guard is spent and one slot only
    is set. *)
Lemma panic_goexit_exclusive_witness :
  fresh New ∧
  run (init New) panicThenGoexit = Ok (after New panicThenGoexit) ∧
  (panic (grp (after New panicThenGoexit)) = VNil
   ∨ goexit (grp (after New panicThenGoexit)) = false) ∧
  terminateOnce (grp (after New panicThenGoexit)) = true.
Proof.
  split; [exact fresh_New|].
  split; [apply run_after; evaluate|].
  destruct (panic_goexit_exclusive New panicThenGoexit
              (after New panicThenGoexit) fresh_New
              (run_after New panicThenGoexit eq_refl)) as (Hex & Honce & _).
  split; [exact Hex|]. refine (eq_trans Honce _). evaluate.
Defined.

(** C3, as stated, fails.  A task panics, another calls [runtime.Goexit],
    and the panicking one records first: both goroutines are gone, the
    goexit flag is unset and [Wait] panics instead of calling
    [runtime.Goexit]. *)
Lemma panic_recorded_first_hides_goexit :
  run (init New) panicThenGoexit = Ok (after New panicThenGoexit) ∧
  step (after New panicThenGoexit) CallWait
    = Ok (after New (panicThenGoexit ++ [CallWait])) ∧
  body <$> launched panicThenGoexit
    = [PanicWith (VString "some string"); RuntimeGoexit] ∧
  at_pc <$> goroutines (after New panicThenGoexit) = [Exited; Exited] ∧
  goexit (grp (after New (panicThenGoexit ++ [CallWait]))) = false ∧
  waits (after New (panicThenGoexit ++ [CallWait])) = [WaitPanics wrapped] ∧
  ¬ (∀ g evs w w' i j fi fj v,
       fresh g → run (init g) evs = Ok w → step w CallWait = Ok w' →
       launched evs !! i = Some fi → body fi = RuntimeGoexit →
       launched evs !! j = Some fj → body fj = PanicWith v →
       goexit (grp w') = true ∧ waits w' = WaitGoexits :: waits w).
Proof.
  split; [apply run_after; evaluate|].
  split; [apply step_after; evaluate|].
  split; [evaluate|]. split; [evaluate|]. split; [evaluate|].
  split; [evaluate|].
  intros Hclaim.
  destruct (Hclaim New panicThenGoexit (after New panicThenGoexit)
              (after New (panicThenGoexit ++ [CallWait]))
              1 0 goexits (panics (VString "some string"))
              (VString "some string") fresh_New
              (run_after New panicThenGoexit eq_refl)
              (step_after New panicThenGoexit CallWait eq_refl)
              eq_refl eq_refl eq_refl eq_refl) as [Hflag _].
  vm_compute in Hflag. discriminate.
Qed.

End Samples.

(** * Further properties of the code *)

(** ** Classifying a task and capturing its stack *)

Section MoreStack.

Lemma growStack_unfold fuel tr len :
  growStack fuel tr len =
  if runtime_Stack tr len =? len then
    match fuel with
    | O => None
    | S fuel' => growStack fuel' tr (len * 2)
    end
  else Some len.
Proof. by destruct fuel. Qed.

Lemma growStack_doubles tr : ∀ fuel len,
  0 < len → String.length tr < fuel + len →
  ∃ k, growStack fuel tr len = Some (len * 2 ^ k) ∧
       String.length tr < len * 2 ^ k ∧
       ∀ j, j < k → len * 2 ^ j ≤ String.length tr.
Proof.
  induction fuel as [|fuel IH]; intros len Hpos Hlt; rewrite growStack_unfold.
  - rewrite runtime_Stack_short by lia.
    destruct (Nat.eqb_spec (String.length tr) len); [lia|].
    exists 0. rewrite Nat.pow_0_r, Nat.mul_1_r. repeat split; [lia|].
    intros j Hj. lia.
  - destruct (Nat.eqb_spec (runtime_Stack tr len) len) as [Heq|Hne].
    + destruct (IH (len * 2)) as (k & Hk & Hlen & Hleast); [lia..|].
      exists (S k). rewrite Hk, Nat.pow_succ_r'.
      replace (len * (2 * 2 ^ k)) with (len * 2 * 2 ^ k) by lia.
      split; [done|]. split; [done|]. intros [|j] Hj.
      * rewrite Nat.pow_0_r. unfold runtime_Stack in Heq. lia.
      * rewrite Nat.pow_succ_r'.
        replace (len * (2 * 2 ^ j)) with (len * 2 * 2 ^ j) by lia.
        apply Hleast. lia.
    + exists 0. rewrite Nat.pow_0_r, Nat.mul_1_r. split; [done|].
      split; [unfold runtime_Stack in Hne; lia|]. intros j Hj. lia.
Qed.

(** X2. The loop of [errorOrStack] ends with a buffer of 2048 bytes doubled
    some number of times, the least number for which the trace does not fill
    the buffer; what [runtime.Stack] wrote into it is then the whole trace,
    however long. *)
Theorem growStack_least_buffer tr :
  ∃ k, growStack (S (String.length tr)) tr (2 * 2 ^ 10)
         = Some (2 * 2 ^ 10 * 2 ^ k) ∧
       String.length tr < 2 * 2 ^ 10 * 2 ^ k ∧
       (∀ j, j < k → 2 * 2 ^ 10 * 2 ^ j ≤ String.length tr) ∧
       sliceTo tr (runtime_Stack tr (2 * 2 ^ 10 * 2 ^ k)) = tr.
Proof.
  assert (0 < 2 * 2 ^ 10) as Hpos.
  { apply Nat.mul_pos_pos; [lia|]. apply Nat.neq_0_lt_0, Nat.pow_nonzero. lia. }
  destruct (growStack_doubles tr (S (String.length tr)) (2 * 2 ^ 10) Hpos)
    as (k & Hk & Hlen & Hleast); [lia|].
  exists k. split; [done|]. split; [done|]. split; [done|].
  rewrite runtime_Stack_short by done. apply sliceTo_all.
Qed.

Lemma IndexByte_split s c : ∀ n,
  IndexByte s c = Some n →
  ∃ line, String.length line = n ∧ IndexByte line c = None ∧
          s = line +:+ String c (sliceFrom s (n + 1)).
Proof.
  induction s as [|a s IH]; intros n; simpl; [done|].
  destruct (Ascii.eqb a c) eqn:E.
  - intros [= <-]. apply Ascii.eqb_eq in E as ->. exists "". simpl.
    split; [done|]. split; [done|]. by destruct s.
  - destruct (IndexByte s c) as [m|] eqn:Hm; simpl; [|done].
    intros [= <-]. destruct (IH m eq_refl) as (line & Hlen & Hnone & Hs).
    exists (String a line). simpl. rewrite E, Hnone, Hlen.
    split; [done|]. split; [done|]. rewrite app_cons. by f_equal.
Qed.

(** X3. [errorOrStack] cuts at most one line off the captured stack: a stack
    without a newline is kept whole, and otherwise what is cut is the text
    up to and including the first newline, and nothing else. *)
Theorem trimFirstLine_cuts_one_line stack :
  (IndexByte stack newline = None → trimFirstLine stack = stack) ∧
  (∀ n, IndexByte stack newline = Some n →
     ∃ line, String.length line = n ∧ IndexByte line newline = None ∧
             stack = line +:+ String newline (trimFirstLine stack)).
Proof.
  unfold trimFirstLine. split.
  - by intros ->.
  - intros n Hn. rewrite Hn. by apply IndexByte_split.
Qed.

Lemma prefix_trans s t u :
  String.prefix s t = true → String.prefix t u = true → String.prefix s u = true.
Proof.
  revert t u. induction s as [|a s IH]; intros [|b t] [|c u]; simpl; try done.
  destruct (ascii_dec a b) as [->|]; [|done].
  destruct (ascii_dec b c) as [->|]; [|done].
  intros H1 H2. by apply (IH t u).
Qed.

Lemma errorOrStack_total tr v : ∃ r, errorOrStack tr v = Some r.
Proof.
  destruct (isError v) eqn:E.
  - exists v. by apply errorOrStack_error.
  - eexists. by apply errorOrStack_wrap.
Qed.

Lemma errorOrStack_prefix tr v r :
  errorOrStack tr v = Some r → String.prefix (Sprint v) (Sprint r) = true.
Proof.
  destruct (isError v) eqn:E.
  - rewrite errorOrStack_error by done. intros [= <-]. apply prefix_refl.
  - rewrite errorOrStack_wrap by done. intros [= <-]. simpl. apply prefix_app.
Qed.

(** X1. When the function of a task ends, [doubleDeferSandwich] ends too
    (the loop that captures the stack does) and tells the three ways it can
    end apart.  A return gives a nil panic value and the task's error and
    leaves [goexiting] unset; a panic gives a panic value that is never nil,
    whatever the payload (nil included), and a nil error, and leaves
    [goexiting] unset; a [runtime.Goexit] sets [goexiting] and does not
    return to [Go], and nothing else does.  A [task] records how a function
    ends; a function that never ends, and with it [doubleDeferSandwich], is a
    goroutine that stays at [InF]. *)
Theorem sandwich_tells_apart t :
  (∀ e, body t = ReturnErr e →
     doubleDeferSandwich t = Some (mkSandwich VNil e false true)) ∧
  (∀ v, body t = PanicWith v →
     ∃ r, errorOrStack (trace t) v = Some r ∧ notNil r = true ∧
          doubleDeferSandwich t = Some (mkSandwich r None false true)) ∧
  (body t = RuntimeGoexit →
     ∃ r, doubleDeferSandwich t = Some (mkSandwich r None true false)) ∧
  (∀ s, doubleDeferSandwich t = Some s →
     (sw_goexiting s = true ↔ body t = RuntimeGoexit) ∧
     sw_returned s = negb (sw_goexiting s)).
Proof.
  split; [|split; [|split]].
  - intros e Hb. unfold doubleDeferSandwich. by rewrite Hb.
  - intros v Hb. destruct (errorOrStack_total (trace t) v) as [r Hr].
    exists r. split; [done|]. split; [by eapply errorOrStack_notNil|].
    unfold doubleDeferSandwich. rewrite Hb. simpl. by rewrite Hr.
  - intros Hb. destruct (errorOrStack_total (trace t) VNil) as [r Hr].
    exists r. unfold doubleDeferSandwich. rewrite Hb. simpl. by rewrite Hr.
  - intros s Hs. by destruct (sandwich_shape _ _ Hs).
Qed.

(** X4. A panic value that passes through a second group (a task of an outer
    group that lets the panic of an inner [Wait] escape) is treated alike: an
    error payload is still the same value, any other payload is wrapped
    twice, and the printed form still begins with that of the payload. *)
Theorem errorOrStack_twice tr tr' v r r' :
  errorOrStack tr v = Some r → errorOrStack tr' r = Some r' →
  (isError v = true → r' = v) ∧
  (isError v = false →
     r' = VPanicStack (VPanicStack v (trimFirstLine tr)) (trimFirstLine tr')) ∧
  String.prefix (Sprint v) (Sprint r') = true.
Proof.
  intros Hr Hr'. split; [|split].
  - intros E. rewrite errorOrStack_error in Hr by done. injection Hr as <-.
    rewrite errorOrStack_error in Hr' by done. by injection Hr' as <-.
  - intros E. rewrite errorOrStack_wrap in Hr by done. injection Hr as <-.
    rewrite errorOrStack_wrap in Hr' by done. by injection Hr' as <-.
  - apply (prefix_trans _ (Sprint r)); by eapply errorOrStack_prefix.
Qed.

End MoreStack.

(** ** The group over its life *)

Section MoreReachable.

Lemma run_app w evs1 evs2 :
  run w (evs1 ++ evs2) = (run w evs1 ≫= λ w', run w' evs2).
Proof.
  revert w. induction evs1 as [|e evs1 IH]; intros w; simpl.
  - by destruct (run w evs2).
  - destruct (step w e) as [w1| |]; simpl; [apply IH|done..].
Qed.

Lemma run_commits w evs w' :
  run w evs = Ok w' → ∃ l, commits w' = commits w ++ l.
Proof.
  revert w. induction evs as [|e evs IH]; intros w; simpl.
  - intros [= <-]. exists []. by rewrite app_nil_r.
  - intros H. apply bind_Ok in H as (w1 & Hstep & Hrun).
    destruct (step_commits _ _ _ Hstep) as [l1 Hl1].
    destruct (IH _ Hrun) as [l2 Hl2]. exists (l1 ++ l2).
    by rewrite Hl2, Hl1, app_assoc.
Qed.

Lemma first_keeps p l1 l2 k : first p l1 = Some k → first p (l1 ++ l2) = Some k.
Proof. intros H. by rewrite first_app, H. Qed.

Lemma has_elem p l k : k ∈ l → p k = true → has p l = true.
Proof.
  unfold has. induction l as [|x l IH]; intros Hk Hp; simpl.
  - by apply elem_of_nil in Hk.
  - destruct (p x) eqn:Hx; [done|]. apply IH; [|done].
    apply elem_of_cons in Hk as [->|Hk]; [congruence|done].
Qed.

Lemma has_true p l : has p l = true → ∃ k, k ∈ l ∧ p k = true.
Proof.
  unfold has. destruct (first p l) as [k|] eqn:Hk; [|done]. intros _.
  exists k. by apply first_elem.
Qed.

(** A recorded kind other than [KNothing], told by the goroutines. *)
Lemma recorded_not_nothing w :
  Linked w →
  (has isTermination (recorded w) || has isFailure (recorded w) = true ↔
   ∃ i gr, goroutines w !! i = Some gr ∧ hasCommitted (at_pc gr) = true ∧
           body (fn gr) ≠ ReturnErr None).
Proof.
  intros [Hc Hg _]. split.
  - intros H. apply orb_true_iff in H.
    assert (∃ k, k ∈ recorded w ∧ k ≠ KNothing) as (k & Hk & Hne).
    { destruct H as [H|H]; apply has_true in H as (k & Hk & Hp);
        exists k; split; try done; by destruct k. }
    apply recorded_elem in Hk as (i & s & Hi & ->).
    destruct (Hc i s Hi) as (gr & Hgr & Hs & Hp). exists i, gr.
    split; [done|]. split; [done|]. intros Hb.
    apply classify_of_body in Hs. by rewrite Hb in Hs.
  - intros (i & gr & Hgr & Hp & Hb).
    destruct (Hg i gr Hgr Hp) as [s Hi].
    destruct (Hc i s Hi) as (gr' & Hgr' & Hs & _).
    rewrite Hgr in Hgr'. injection Hgr' as <-.
    assert (classify s ∈ recorded w) as Hk.
    { unfold recorded. by apply (list_elem_of_fmap_2 (λ c, classify c.2) _ (i, s)). }
    apply classify_of_body in Hs. apply orb_true_iff.
    destruct (body (fn gr)) as [[e|]|v|]; try done.
    + right. apply (has_elem _ _ _ Hk). by rewrite Hs.
    + left. apply (has_elem _ _ _ Hk). destruct Hs as [_ ->]. done.
    + left. apply (has_elem _ _ _ Hk). by rewrite Hs.
Qed.

Lemma live_le_length gs : live gs ≤ length gs.
Proof.
  induction gs as [|gr gs IH]; simpl; [done|]. destruct (isLive gr); lia.
Qed.

(** X5. The goroutines never make the package panic.  As long as fewer than
    2^31 goroutines have been started on a group reached from a fresh one
    (the counter of [sync.WaitGroup] is an int32), the counter is within
    the int32 range and not negative; no step of a goroutine raises a
    run-time panic, neither [cancel] by calling a nil function nor
    [wg.Done] by driving the counter below zero; a goroutine about to run
    [wg.Done] does run it; and the [cancel] of [Stop] goes through. *)
Theorem no_step_faults g evs w :
  fresh g → run (init g) evs = Ok w →
  (Z.of_nat (length (goroutines w)) < 2 ^ 31)%Z →
  (0 ≤ wg (grp w) < 2 ^ 31)%Z ∧
  (∀ ev, goroutineStep ev = true → step w ev ≠ Fault) ∧
  (∀ i gr, goroutines w !! i = Some gr → at_pc gr = BeforeDone →
     ∃ w', step w (Done i) = Ok w' ∧
           wg (grp w') = (wg (grp w) - 1)%Z ∧ (0 ≤ wg (grp w'))%Z) ∧
  (∃ w', step w CallStop = Ok w').
Proof.
  intros Hg Hrun Hfew.
  destruct (run_reaches _ _ _ Hg Hrun) as (HI & _ & _).
  pose proof HI as [Hgrp _].
  pose proof (live_le_length (goroutines w)) as Hle.
  assert (wg (grp w) = Z.of_nat (live (goroutines w))) as Hwg
    by by rewrite Hgrp.
  split; [lia|]. split; [intros ev _; by eapply step_safe|]. split.
  - intros i [f p] Hi Hp. simpl in Hp. subst p.
    pose proof (live_pos _ _ _ Hi eq_refl) as Hpos.
    unfold step. rewrite Hi. unfold wg_Done, wg_Add.
    destruct (Z.ltb_spec (wg (grp w) + -1) 0); [lia|]. simpl.
    eexists. split; [done|]. simpl. lia.
  - rewrite step_CallStop. by eexists.
Qed.

(** X6. When the context is cancelled.  In a world reached from a fresh
    group, [cancel] has run if and only if a goroutine has recorded an
    outcome other than a nil error (an error, a panic, a Goexit), or [Stop]
    was called, or the group is from [WithContext] and a [Wait] has
    returned; and the bound cancel function has been called if and only if
    [cancel] has run and there is a function bound. *)
Theorem cancelled_iff_failed_or_stopped g evs w :
  fresh g → run (init g) evs = Ok w →
  (cancelOnce (grp w) = true ↔
     (∃ i gr, goroutines w !! i = Some gr ∧ hasCommitted (at_pc gr) = true ∧
              body (fn gr) ≠ ReturnErr None)
     ∨ 0 < stopCalls w
     ∨ (g = WithContext ∧ waits w ≠ [])) ∧
  (ctxCalls w = 1 ↔ cancelOnce (grp w) = true ∧ g ≠ zeroGroup) ∧
  (ctxCalls w = 0 ↔ cancelOnce (grp w) = false ∨ g = zeroGroup).
Proof.
  intros Hg Hrun.
  destruct (run_reaches _ _ _ Hg Hrun) as ([Hgrp Hcalls] & HL & _).
  pose proof (recorded_not_nothing w HL) as Hrec.
  rewrite Hcalls, Hgrp. unfold callsOf. simpl. unfold cancelRequested.
  split; [|split].
  - rewrite !orb_true_iff, <- orb_true_iff, Hrec, andb_true_iff,
      negb_true_iff, bool_decide_eq_false, Nat.ltb_lt.
    destruct Hg as [-> | [-> | ->]]; simpl;
      intuition (auto; discriminate).
  - destruct (_ || _ || _ || _);
      destruct Hg as [-> | [-> | ->]]; simpl;
      intuition (auto; discriminate).
  - destruct (_ || _ || _ || _);
      destruct Hg as [-> | [-> | ->]]; simpl;
      intuition (auto; discriminate).
Qed.

(** X7. A second [Wait] right after a [Wait] that ended ends the same way
    and changes nothing: neither the group nor the number of calls of the
    cancel function. *)
Theorem Wait_again w w1 :
  step w CallWait = Ok w1 →
  ∃ out w2, waits w1 = out :: waits w ∧
            step w1 CallWait = Ok w2 ∧
            waits w2 = out :: waits w1 ∧
            grp w2 = grp w1 ∧ ctxCalls w2 = ctxCalls w1.
Proof.
  intros H. apply step_CallWait in H as (Hz & Hgs & Hcm & Hsw & Hsr & Hm & Hws).
  assert (grp w1 = (memOf w1).1) as Hg1 by done.
  assert (ctxCalls w1 = (memOf w1).2) as Hc1 by done.
  assert (wg (grp w1) = 0%Z ∧ panic (grp w1) = panic (grp w) ∧
          goexit (grp w1) = goexit (grp w) ∧ err (grp w1) = err (grp w) ∧
          cancelOnWait (grp w1) = cancelOnWait (grp w) ∧
          (cancelOnWait (grp w) = true → cancelOnce (grp w1) = true))
    as (Hz1 & Hp & Hgo & He & Hcw & Hco).
  { rewrite Hg1, Hm. destruct (cancelOnWait (grp w)) eqn:E1; [|done].
    by destruct (cancelOnce (grp w)) eqn:E2. }
  eexists. exists (mkWorld (grp w1) (goroutines w1) (ctxCalls w1) (commits w1)
                     (hd (WaitReturns None) (waits w1) :: waits w1)
                     (stopsWaiting w1) (stopsReturned w1)).
  split; [exact Hws|]. rewrite Hws. simpl. split; [|done].
  unfold step. rewrite Wait_eq by done. unfold memOf. simpl.
  rewrite Hcw. destruct (cancelOnWait (grp w)) eqn:E1.
  - rewrite cancel_eq, (Hco eq_refl). simpl. by rewrite Hp, Hgo, He, Hws.
  - simpl. by rewrite Hp, Hgo, He, Hws.
Qed.


Lemma first_isTermination w k :
  first isTermination (recorded w) = Some k →
  k = KGoexit ∨ ∃ v, k = KPanic v ∧ notNil v = true.
Proof.
  intros H. pose proof (first_elem _ _ _ H) as [_ Hp].
  destruct k as [| |v|]; try done; [right|by left].
  exists v. split; [done|]. by apply (recorded_panic_notNil w).
Qed.

Lemma first_isFailure l k :
  first isFailure l = Some k → ∃ e, k = KError e.
Proof.
  intros H. apply first_elem in H as [_ Hp]. destruct k; try done. by eexists.
Qed.

(** X8. What is recorded stays.  Once a panic or a Goexit is recorded, no
    later step changes the panic slot or the goexit flag, and every later
    [Wait] ends as a [Wait] would have ended then; once an error is
    recorded, no later step changes it. *)
Theorem recorded_outcome_is_final g evs w evs' w' :
  fresh g → run (init g) evs = Ok w → run w evs' = Ok w' →
  (terminateOnce (grp w) = true →
     terminateOnce (grp w') = true ∧
     panic (grp w') = panic (grp w) ∧ goexit (grp w') = goexit (grp w) ∧
     ∀ w1 w1', step w CallWait = Ok w1 → step w' CallWait = Ok w1' →
               hd_error (waits w1') = hd_error (waits w1)) ∧
  (errOnce (grp w) = true →
     errOnce (grp w') = true ∧ err (grp w') = err (grp w)).
Proof.
  intros Hg Hrun Hrun'.
  assert (run (init g) (evs ++ evs') = Ok w') as Hall.
  { by rewrite run_app, Hrun. }
  destruct (run_reaches _ _ _ Hg Hrun) as ([Hgrp _] & _ & _).
  destruct (run_reaches _ _ _ Hg Hall) as ([Hgrp' _] & _ & _).
  destruct (run_commits _ _ _ Hrun') as [l Hl].
  assert (recorded w' = recorded w ++ map (λ c, classify c.2) l) as HR.
  { unfold recorded. by rewrite Hl, map_app. }
  split.
  - intros Ht. rewrite Hgrp in Ht. simpl in Ht. unfold has in Ht.
    destruct (first isTermination (recorded w)) as [k|] eqn:Hk; [|done].
    assert (first isTermination (recorded w') = Some k) as Hk'.
    { rewrite HR. by apply first_keeps. }
    assert (panic (grp w') = panic (grp w) ∧ goexit (grp w') = goexit (grp w))
      as [Hp Hgo].
    { rewrite Hgrp', Hgrp. simpl. unfold panicOf, goexitOf.
      by rewrite Hk, Hk'. }
    split; [rewrite Hgrp'; simpl; unfold has; by rewrite Hk'|].
    split; [done|]. split; [done|]. intros w1 w1' H1 H1'.
    apply step_CallWait in H1 as (_ & _ & _ & _ & _ & _ & ->).
    apply step_CallWait in H1' as (_ & _ & _ & _ & _ & _ & ->).
    simpl. rewrite Hp, Hgo. f_equal. rewrite Hgrp. simpl.
    unfold panicOf, goexitOf. rewrite Hk.
    destruct (first_isTermination _ _ Hk) as [-> | (v & -> & Hv)]; [done|].
    by rewrite Hv.
  - intros He. rewrite Hgrp in He. simpl in He. unfold has in He.
    destruct (first isFailure (recorded w)) as [k|] eqn:Hk; [|done].
    assert (first isFailure (recorded w') = Some k) as Hk'.
    { rewrite HR. by apply first_keeps. }
    rewrite Hgrp', Hgrp. simpl. unfold has, errOf. by rewrite Hk, Hk'.
Qed.

(** X12. With a group from [New] on which [Stop] has not been called, the
    context is cancelled when [Wait] ends exactly if [Wait] does not return
    nil: after a successful [Wait] the context is still live. *)
Theorem New_context_cancelled_iff_Wait_fails evs w w' out :
  run (init New) evs = Ok w → stopCalls w = 0 →
  step w CallWait = Ok w' → waits w' = out :: waits w →
  (ctxCalls w' = 1 ↔ out ≠ WaitReturns None) ∧
  (ctxCalls w' = 0 ↔ out = WaitReturns None).
Proof.
  intros Hrun Hstop Hstep Hout.
  assert (fresh New) as Hg by (right; by left).
  destruct (run_reaches _ _ _ Hg Hrun) as ([Hgrp Hcalls] & _ & _).
  apply step_CallWait in Hstep as (_ & _ & _ & _ & _ & Hm & Hws).
  rewrite Hws in Hout. injection Hout as <-.
  assert (ctxCalls w' = ctxCalls w) as ->.
  { change (ctxCalls w') with (memOf w').2. rewrite Hm, Hgrp. done. }
  rewrite Hcalls, Hgrp. unfold callsOf, cancelRequested. simpl.
  rewrite Hstop. simpl. rewrite !orb_false_r, andb_true_r.
  unfold has, panicOf, goexitOf, errOf.
  destruct (first isTermination (recorded w)) as [k|] eqn:Hk.
  - destruct (first_isTermination _ _ Hk) as [-> | (v & -> & Hv)]; simpl;
      rewrite ?Hv; split; split; done.
  - simpl. destruct (first isFailure (recorded w)) as [k|] eqn:Hf.
    + destruct (first_isFailure _ _ Hf) as [e ->]. split; split; done.
    + split; split; done.
Qed.


Lemma classify_body_inv f s :
  doubleDeferSandwich f = Some s →
  (classify s = KNothing ↔ body f = ReturnErr None) ∧
  (∀ e, classify s = KError e ↔ body f = ReturnErr (Some e)) ∧
  (classify s = KGoexit ↔ body f = RuntimeGoexit) ∧
  (∀ r, classify s = KPanic r →
     ∃ v, body f = PanicWith v ∧ errorOrStack (trace f) v = Some r).
Proof.
  intros H. apply classify_of_body in H.
  destruct (body f) as [[e|]|v|].
  - rewrite H. repeat split; try done; intros; congruence.
  - rewrite H. repeat split; try done; intros; congruence.
  - destruct H as [Hr ->]. repeat split; try done.
    intros r [= <-]. by exists v.
  - rewrite H. repeat split; try done; intros; congruence.
Qed.

(** When the counter is zero, the recorded kinds are those of the launched
    tasks. *)
Lemma recorded_at_join g evs w :
  fresh g → run (init g) evs = Ok w → wg (grp w) = 0%Z →
  (∀ k, k ∈ recorded w →
     ∃ f s, f ∈ launched evs ∧ doubleDeferSandwich f = Some s ∧ k = classify s) ∧
  (∀ f, f ∈ launched evs →
     ∃ s, doubleDeferSandwich f = Some s ∧ classify s ∈ recorded w).
Proof.
  intros Hg Hrun Hz.
  destruct (run_reaches _ _ _ Hg Hrun) as ([Hgrp _] & [Hc Hgo _] & Hf).
  split.
  - intros k Hk. apply recorded_elem in Hk as (i & s & Hi & ->).
    destruct (Hc i s Hi) as (gr & Hgr & Hs & _). exists (fn gr), s.
    split; [|done]. rewrite <- Hf.
    apply list_elem_of_fmap_2. by eapply list_elem_of_lookup_2.
  - intros f Hin. rewrite <- Hf in Hin.
    apply list_elem_of_fmap in Hin as (gr & -> & Hin).
    apply list_elem_of_lookup_1 in Hin as [i Hi].
    assert (at_pc gr = Exited) as Hpc.
    { assert (live (goroutines w) = 0) as Hl.
      { rewrite Hgrp in Hz. simpl in Hz. lia. }
      apply live_zero in Hl. by apply (Forall_lookup_1 _ _ _ _ Hl Hi). }
    destruct (Hgo i gr Hi) as [s Hs]; [by rewrite Hpc|].
    destruct (Hc i s Hs) as (gr' & Hi' & Hd & _).
    rewrite Hi in Hi'. injection Hi' as <-. exists s. split; [done|].
    unfold recorded.
    by apply (list_elem_of_fmap_2 (λ c, classify c.2) _ (i, s)).
Qed.

(** X11. How [Wait] ends is owed to the tasks.  [Wait] returns nil exactly
    if every task passed to [Go] returned nil.  If it returns an error, a
    task returned that error and no task panicked or called
    [runtime.Goexit]; if it calls [runtime.Goexit], a task did; if it
    panics, a task panicked and the value is what [errorOrStack] made of its
    payload. *)
Theorem Wait_outcome_is_owed_to_a_task g evs w w' out :
  fresh g → run (init g) evs = Ok w →
  step w CallWait = Ok w' → waits w' = out :: waits w →
  (out = WaitReturns None ↔
     ∀ f, f ∈ launched evs → body f = ReturnErr None) ∧
  (∀ e, out = WaitReturns (Some e) →
     (∃ f, f ∈ launched evs ∧ body f = ReturnErr (Some e)) ∧
     ∀ f, f ∈ launched evs → ∃ e', body f = ReturnErr e') ∧
  (out = WaitGoexits → ∃ f, f ∈ launched evs ∧ body f = RuntimeGoexit) ∧
  (∀ r, out = WaitPanics r →
     ∃ f v, f ∈ launched evs ∧ body f = PanicWith v ∧
            errorOrStack (trace f) v = Some r).
Proof.
  intros Hg Hrun Hstep Hout.
  destruct (run_reaches _ _ _ Hg Hrun) as ([Hgrp _] & _ & _).
  apply step_CallWait in Hstep as (Hz & _ & _ & _ & _ & _ & Hws).
  rewrite Hws in Hout. injection Hout as <-. clear Hws.
  destruct (recorded_at_join _ _ _ Hg Hrun Hz) as [Hfrom Hto].
  rewrite Hgrp. simpl. unfold panicOf, goexitOf, errOf.
  assert (∀ p k, first p (recorded w) = Some k →
            ∃ f s, f ∈ launched evs ∧ doubleDeferSandwich f = Some s ∧
                   k = classify s) as Hfirst.
  { intros p k Hk. apply first_elem in Hk as [Hk _]. by apply Hfrom. }
  assert (∀ p, first p (recorded w) = None →
            ∀ f, f ∈ launched evs →
            ∃ s, doubleDeferSandwich f = Some s ∧ p (classify s) = false)
    as Hnone.
  { intros p Hp f Hin. destruct (Hto f Hin) as (s & Hs & Hk). exists s.
    split; [done|]. destruct (p (classify s)) eqn:E; [|done].
    pose proof (has_elem p _ _ Hk E) as Hhas. unfold has in Hhas.
    by rewrite Hp in Hhas. }
  destruct (first isTermination (recorded w)) as [k|] eqn:Hk.
  - destruct (Hfirst _ _ Hk) as (f & s & Hin & Hs & ->).
    destruct (classify_body_inv _ _ Hs) as (_ & _ & Hgo & Hpanic).
    destruct (first_isTermination _ _ Hk) as [Hc | (v & Hc & Hv)];
      rewrite Hc; simpl; rewrite ?Hv.
    + split; [split; [done|]|]; [|split; [done|split; [|done]]].
      * intros Hall. apply Hgo in Hc. rewrite (Hall f Hin) in Hc. done.
      * intros _. exists f. split; [done|]. by apply Hgo.
    + split; [split; [done|]|]; [|split; [done|split; [done|]]].
      * intros Hall. destruct (Hpanic v Hc) as (v0 & Hb & _).
        rewrite (Hall f Hin) in Hb. done.
      * intros r [= <-]. destruct (Hpanic v Hc) as (v0 & Hb & Hr).
        by exists f, v0.
  - simpl. pose proof (Hnone _ Hk) as Hret.
    assert (∀ f, f ∈ launched evs → ∃ e', body f = ReturnErr e') as Hreturns.
    { intros f Hin. destruct (Hret f Hin) as (s & Hs & Hp).
      apply classify_of_body in Hs.
      destruct (body f) as [e'|v|]; [by eexists| |].
      - destruct Hs as [_ Hs]. by rewrite Hs in Hp.
      - by rewrite Hs in Hp. }
    destruct (first isFailure (recorded w)) as [k|] eqn:Hf.
    + destruct (first_isFailure _ _ Hf) as [e ->].
      destruct (Hfirst _ _ Hf) as (f & s & Hin & Hs & Hc).
      destruct (classify_body_inv _ _ Hs) as (_ & He & _ & _).
      symmetry in Hc. apply He in Hc.
      split; [split; [done|]|]; [|split; [|split; done]].
      * intros Hall. rewrite (Hall f Hin) in Hc. done.
      * intros e0 [= <-]. split; [by exists f|done].
    + split; [split; [intros _|done]|]; [|split; [done|split; done]].
      intros f Hin. destruct (Hnone _ Hf f Hin) as (s & Hs & Hp).
      destruct (Hreturns f Hin) as [[e'|] Hb]; [|done].
      destruct (classify_body_inv _ _ Hs) as (_ & He & _ & _).
      apply He in Hb. by rewrite Hb in Hp.
Qed.

End MoreReachable.

(** ** Running to the end *)

Section Liveness.

Lemma todo_insert gs : ∀ i gr gr',
  gs !! i = Some gr →
  todo (<[i := gr']> gs) + remaining (at_pc gr)
  = todo gs + remaining (at_pc gr').
Proof.
  induction gs as [|x gs IH]; intros [|i] gr gr' H; simpl in *; try done.
  - injection H as ->. lia.
  - specialize (IH i gr gr' H). lia.
Qed.

Lemma todo_pos gs :
  0 < todo gs → ∃ i gr, gs !! i = Some gr ∧ 0 < remaining (at_pc gr).
Proof.
  induction gs as [|x gs IH]; simpl; [lia|]. intros H.
  destruct (remaining (at_pc x)) as [|n] eqn:E.
  - destruct IH as (i & gr & Hi & Hr); [lia|]. by exists (S i), gr.
  - exists 0, x. split; [done|]. lia.
Qed.

Lemma todo_zero gs : todo gs = 0 → live gs = 0.
Proof.
  induction gs as [|x gs IH]; simpl; [done|]. intros H.
  rewrite IH by lia. destruct x as [f []]; simpl in *; lia.
Qed.

Lemma doubleDeferSandwich_total f : ∃ s, doubleDeferSandwich f = Some s.
Proof.
  unfold doubleDeferSandwich. destruct (body f) as [e|v|]; simpl.
  - by eexists.
  - destruct (errorOrStack_total (trace f) v) as [r ->]. by eexists.
  - destruct (errorOrStack_total (trace f) VNil) as [r ->]. by eexists.
Qed.

(** A goroutine whose function has ended and that is not gone can take its
    next step, whatever the others and the callers do. *)
Lemma goroutine_progress g0 w i gr :
  Inv g0 w → goroutines w !! i = Some gr →
  0 < remaining (at_pc gr) → at_pc gr ≠ InF →
  ∃ ev w', recordingStep ev = true ∧ step w ev = Ok w' ∧
           S (todo (goroutines w')) = todo (goroutines w) ∧
           waits w' = waits w ∧ stopsWaiting w' = stopsWaiting w ∧
           (Forall (λ gr, at_pc gr ≠ InF) (goroutines w) →
            Forall (λ gr, at_pc gr ≠ InF) (goroutines w')).
Proof.
  intros [Hgrp _] Hi Hr Hended. destruct gr as [f p]. simpl in Hr, Hended.
  destruct p; [done| | |simpl in Hr; lia].
  - exists (Commit i). unfold step. rewrite Hi.
    destruct (doubleDeferSandwich_total f) as [s Hs].
    rewrite Hs. destruct (commit_total f s (memOf w) Hs) as [m ->].
    eexists. split; [done|]. split; [done|]. simpl.
    pose proof (todo_insert _ _ _ (mkGoroutine f BeforeDone) Hi) as Ht.
    simpl in Ht. split; [lia|]. split; [done|]. split; [done|].
    intros Hall. by apply Forall_insert.
  - exists (Done i). unfold step. rewrite Hi.
    pose proof (live_pos _ _ _ Hi eq_refl) as Hl.
    unfold wg_Done, wg_Add. rewrite Hgrp. simpl.
    destruct (Z.ltb_spec (Z.of_nat (live (goroutines w)) + -1) 0); [lia|].
    eexists. split; [done|]. split; [done|]. simpl.
    pose proof (todo_insert _ _ _ (mkGoroutine f Exited) Hi) as Ht.
    simpl in Ht. split; [lia|]. split; [done|]. split; [done|].
    intros Hall. by apply Forall_insert.
Qed.

Lemma goroutines_can_finish g : ∀ n evs w,
  fresh g → run (init g) evs = Ok w → todo (goroutines w) = n →
  Forall (λ gr, at_pc gr ≠ InF) (goroutines w) →
  ∃ evs' w', forallb recordingStep evs' = true ∧ run w evs' = Ok w' ∧
             todo (goroutines w') = 0 ∧
             waits w' = waits w ∧ stopsWaiting w' = stopsWaiting w.
Proof.
  induction n as [|n IH]; intros evs w Hg Hrun Hn Hended.
  - by exists [], w.
  - destruct (run_reaches _ _ _ Hg Hrun) as (HI & _ & _).
    destruct (todo_pos (goroutines w)) as (i & gr & Hi & Hr); [lia|].
    pose proof (Forall_lookup_1 _ _ _ _ Hended Hi) as Hgr.
    destruct (goroutine_progress _ _ _ _ HI Hi Hr Hgr)
      as (ev & w1 & Hev & Hstep & Htodo & Hws & Hsw & Hkeeps).
    destruct (IH (evs ++ [ev]) w1 Hg)
      as (evs' & w' & Hevs & Hrun' & Hz & Hws' & Hsw').
    + by rewrite run_snoc, Hrun.
    + lia.
    + by apply Hkeeps.
    + exists (ev :: evs'), w'. simpl. rewrite Hev, Hstep. simpl.
      split; [done|]. split; [done|]. split; [done|].
      split; congruence.
Qed.

(** X9. The package holds nothing back.  A function that blocks keeps its
    goroutine at [InF], and [Wait] waits for it.  But once the function of
    every task has ended, the goroutines can run to their ends by the
    package's own steps (recording the outcome, [wg.Done]), with no further
    call on the group and whatever state it is in; then the counter is
    zero, a [Wait] goes through, and so does a [Stop] that was waiting. *)
Theorem goroutines_finish_and_Wait_returns g evs w :
  fresh g → run (init g) evs = Ok w →
  Forall (λ gr, at_pc gr ≠ InF) (goroutines w) →
  ∃ evs' w', forallb recordingStep evs' = true ∧ run w evs' = Ok w' ∧
             Forall (λ gr, at_pc gr = Exited) (goroutines w') ∧
             wg (grp w') = 0%Z ∧
             (∃ w'', step w' CallWait = Ok w'') ∧
             (0 < stopsWaiting w → ∃ w'', step w' StopReturns = Ok w'').
Proof.
  intros Hg Hrun Hended.
  destruct (goroutines_can_finish g _ evs w Hg Hrun eq_refl Hended)
    as (evs' & w' & Hevs & Hrun' & Hz & Hws & Hsw).
  assert (run (init g) (evs ++ evs') = Ok w') as Hall.
  { by rewrite run_app, Hrun. }
  destruct (run_reaches _ _ _ Hg Hall) as ([Hgrp _] & _ & _).
  pose proof (todo_zero _ Hz) as Hl.
  assert (wg (grp w') = 0%Z) as Hwg by (rewrite Hgrp; simpl; lia).
  exists evs', w'. split; [done|]. split; [done|].
  split; [by apply live_zero|]. split; [done|]. split.
  - unfold step. rewrite Wait_eq by done. unfold memOf. simpl.
    destruct (cancelOnWait (grp w')); rewrite ?cancel_eq; simpl; by eexists.
  - intros Hpos. destruct (stopsWaiting w') as [|n] eqn:E; [lia|].
    rewrite (step_StopReturns w' n E), Hwg. simpl. by eexists.
Qed.

End Liveness.

(** ** The test of the zero Group *)

Section Tests.

Lemma sandwich_of_return e tr :
  doubleDeferSandwich (mkTask (ReturnErr e) tr)
  = Some (mkSandwich VNil e false true).
Proof. reflexivity. Qed.

Lemma lookup_last (gs : list goroutine) x : (gs ++ [x]) !! length gs = Some x.
Proof. by apply list_lookup_middle. Qed.

Lemma insert_last (gs : list goroutine) x y :
  <[length gs := y]> (gs ++ [x]) = gs ++ [y].
Proof.
  rewrite insert_app_r_alt by done. by rewrite Nat.sub_diag.
Qed.

Lemma commit_return e m :
  commit (mkSandwich VNil e false true) m =
  match e with
  | Some _ =>
      if errOnce m.1 then Ok m else cancel (set_err e (set_errOnce m.1), m.2)
  | None => Ok m
  end.
Proof.
  unfold commit. simpl. destruct e as [e|]; simpl; [|done].
  destruct (errOnce m.1); [done|]. by destruct (cancel _).
Qed.

Ltac at_last :=
  match goal with
  | |- context [ @lookup _ _ _ _ (length ?gs) (?gs ++ [?x]) ] =>
      rewrite (lookup_last gs x)
  | |- context [ @insert _ _ _ _ (length ?gs) ?y (?gs ++ [?x]) ] =>
      rewrite (insert_last gs x y)
  end.

Lemma round_of_TestZeroGroup tr err firstErr w :
  atRest firstErr w →
  let firstErr' := if bool_decide (firstErr = None) && bool_decide (err ≠ None)
                   then err else firstErr in
  ∃ w', (run w [CallGo (mkTask (ReturnErr err) tr);
                Terminate (length (goroutines w));
                Commit (length (goroutines w));
                Done (length (goroutines w))] ≫= λ w1, step w1 CallWait)
        = Ok w' ∧
        waits w' = WaitReturns firstErr' :: waits w ∧
        atRest firstErr' w'.
Proof.
  intros [c Hgrp] firstErr'. subst firstErr'.
  simpl. unfold Go, wg_Add. rewrite Hgrp. simpl.
  do 4 (repeat at_last; rewrite ?sandwich_of_return; simpl).
  rewrite commit_return. unfold memOf. simpl.
  destruct err as [e|], firstErr as [e0|], c; simpl;
    rewrite ?cancel_eq; simpl;
    do 2 (repeat at_last; simpl);
    rewrite ?Wait_eq by done; simpl;
    eexists; (split; [done|]); simpl; (split; [done|]); by eexists.
Qed.

(** X10. [TestZeroGroup] passes for every list of errors: on a zero Group
    used again and again, with [Go] and then [Wait] for each error of the
    list, every [Wait] returns the first non-nil error passed so far, nil if
    there was none. *)
Theorem TestZeroGroup_passes tr errs : TestZeroGroup_case tr errs = Ok true.
Proof.
  unfold TestZeroGroup_case.
  assert (atRest None (init zeroGroup)) as H by by exists false.
  revert H. generalize (init zeroGroup) (@None error).
  induction errs as [|err errs IH]; intros w firstErr Hrest; [done|].
  destruct (round_of_TestZeroGroup tr err firstErr w Hrest)
    as (w' & Hrun & Hws & Hrest').
  cbn [TestZeroGroup_rounds].
  apply bind_Ok in Hrun as (w1 & -> & Hstep).
  cbn [mbind result_bind]. rewrite Hstep. cbn [mbind result_bind].
  rewrite Hws, (IH _ _ Hrest'). cbn [mbind result_bind].
  by rewrite bool_decide_eq_true_2.
Qed.

End Tests.

(** ** The further properties on concrete runs *)

Section MoreSamples.
Import Sample.

Lemma run_after_more g evs evs' :
  isOk (run (init g) (evs ++ evs')) = true →
  run (after g evs) evs' = Ok (after g (evs ++ evs')).
Proof.
  unfold after. rewrite run_app.
  destruct (run (init g) evs) as [w| |]; simpl; [|done..].
  by destruct (run w evs').
Qed.

Ltac computed := vm_compute; reflexivity.

(** The sample trace has a first line of 22 bytes, which is cut. *)
Lemma trimFirstLine_cuts_one_line_witness :
  IndexByte stackTrace newline = Some 22 ∧
  ∃ line, String.length line = 22 ∧ IndexByte line newline = None ∧
          stackTrace = line +:+ String newline (trimFirstLine stackTrace).
Proof.
  split; [computed|].
  exact (proj2 (trimFirstLine_cuts_one_line stackTrace) 22 eq_refl).
Defined.

(** A string payload through two groups. *)
Lemma errorOrStack_twice_witness :
  errorOrStack stackTrace (VString "some string") = Some wrapped ∧
  errorOrStack stackTrace wrapped
    = Some (VPanicStack wrapped (trimFirstLine stackTrace)) ∧
  String.prefix "some string"
    (Sprint (VPanicStack wrapped (trimFirstLine stackTrace))) = true.
Proof.
  assert (errorOrStack stackTrace (VString "some string") = Some wrapped)
    as H1 by computed.
  assert (errorOrStack stackTrace wrapped
          = Some (VPanicStack wrapped (trimFirstLine stackTrace)))
    as H2 by computed.
  split; [exact H1|]. split; [exact H2|].
  exact (proj2 (proj2 (errorOrStack_twice _ _ _ _ _ H1 H2))).
Defined.

(** A panic with a nil payload is told from a return: the panic value is the
    wrapped nil. *)
Lemma sandwich_tells_apart_witness :
  body (panics VNil) = PanicWith VNil ∧
  ∃ r, errorOrStack stackTrace VNil = Some r ∧ notNil r = true ∧
       doubleDeferSandwich (panics VNil)
         = Some (mkSandwich r None false true).
Proof.
  split; [reflexivity|].
  exact (proj1 (proj2 (sandwich_tells_apart (panics VNil))) VNil eq_refl).
Defined.

(** Two tasks on a group from [New], one goroutine about to run [wg.Done]:
    it runs it and the counter stays in range. *)
Lemma no_step_faults_witness :
  fresh New ∧
  run (init New) (firstn 7 doomed) = Ok (after New (firstn 7 doomed)) ∧
  (Z.of_nat (length (goroutines (after New (firstn 7 doomed)))) < 2 ^ 31)%Z ∧
  (0 ≤ wg (grp (after New (firstn 7 doomed))) < 2 ^ 31)%Z ∧
  step (after New (firstn 7 doomed)) (Commit 0) ≠ Fault ∧
  ∃ w', step (after New (firstn 7 doomed)) (Done 1) = Ok w' ∧
        (0 ≤ wg (grp w'))%Z.
Proof.
  assert (Z.of_nat (length (goroutines (after New (firstn 7 doomed))))
          < 2 ^ 31)%Z as Hfew by (vm_compute; reflexivity).
  split; [exact fresh_New|]. split; [apply run_after; computed|].
  split; [exact Hfew|].
  destruct (no_step_faults New (firstn 7 doomed) (after New (firstn 7 doomed))
              fresh_New (run_after New (firstn 7 doomed) eq_refl) Hfew)
    as (Hwg & Hsafe & Hdone & _).
  split; [exact Hwg|]. split; [exact (Hsafe (Commit 0) eq_refl)|].
  destruct (Hdone 1 (mkGoroutine (returns None) BeforeDone))
    as (w' & Hstep & _ & Hpos); [computed|reflexivity|].
  exists w'. split; [exact Hstep|exact Hpos].
Defined.

(** A task of a group from [New] has returned an error: the cancel function
    has been called. *)
Lemma cancelled_iff_failed_or_stopped_witness :
  fresh New ∧ run (init New) doomed = Ok (after New doomed) ∧
  cancelOnce (grp (after New doomed)) = true ∧
  ctxCalls (after New doomed) = 1.
Proof.
  split; [exact fresh_New|]. split; [apply run_after; computed|].
  destruct (cancelled_iff_failed_or_stopped New doomed (after New doomed)
              fresh_New (run_after New doomed eq_refl)) as (Honce & Hcalls & _).
  assert (cancelOnce (grp (after New doomed)) = true) as H.
  { apply Honce. left. exists 0, (mkGoroutine (returns (Some err1)) Exited).
    split; [computed|]. split; [reflexivity|]. discriminate. }
  split; [exact H|]. apply Hcalls. split; [exact H|]. discriminate.
Defined.

(** [Wait] twice after a task has returned an error. *)
Lemma Wait_again_witness :
  step (after New doomed) CallWait = Ok (after New (doomed ++ [CallWait])) ∧
  ∃ w2, step (after New (doomed ++ [CallWait])) CallWait = Ok w2 ∧
        waits w2 = [WaitReturns (Some err1); WaitReturns (Some err1)].
Proof.
  assert (step (after New doomed) CallWait
          = Ok (after New (doomed ++ [CallWait]))) as H
    by (apply step_after; computed).
  split; [exact H|].
  destruct (Wait_again _ _ H) as (out & w2 & Hout & Hstep & Hwaits & _).
  exists w2. split; [exact Hstep|].
  assert (waits (after New (doomed ++ [CallWait]))
          = [WaitReturns (Some err1)]) as Hw by computed.
  rewrite Hw in Hout, Hwaits.
  assert (out = WaitReturns (Some err1)) as Heq by congruence.
  rewrite Hwaits, Heq. reflexivity.
Defined.

(** A panic is recorded; a Goexit recorded afterwards changes nothing. *)
Lemma recorded_outcome_is_final_witness :
  fresh New ∧
  run (init New) (firstn 5 panicThenGoexit)
    = Ok (after New (firstn 5 panicThenGoexit)) ∧
  run (after New (firstn 5 panicThenGoexit)) (skipn 5 panicThenGoexit)
    = Ok (after New panicThenGoexit) ∧
  terminateOnce (grp (after New (firstn 5 panicThenGoexit))) = true ∧
  panic (grp (after New panicThenGoexit)) = wrapped ∧
  goexit (grp (after New panicThenGoexit)) = false.
Proof.
  assert (run (init New) (firstn 5 panicThenGoexit)
          = Ok (after New (firstn 5 panicThenGoexit))) as H1
    by (apply run_after; computed).
  assert (run (after New (firstn 5 panicThenGoexit)) (skipn 5 panicThenGoexit)
          = Ok (after New panicThenGoexit)) as H2
    by (apply (run_after_more New (firstn 5 panicThenGoexit)
                 (skipn 5 panicThenGoexit)); computed).
  assert (terminateOnce (grp (after New (firstn 5 panicThenGoexit))) = true)
    as H3 by computed.
  split; [exact fresh_New|]. split; [exact H1|]. split; [exact H2|].
  split; [exact H3|].
  destruct (recorded_outcome_is_final New _ _ _ _ fresh_New H1 H2)
    as [Hterm _].
  destruct (Hterm H3) as (_ & Hpanic & Hgoexit & _).
  split; [refine (eq_trans Hpanic _)|refine (eq_trans Hgoexit _)]; computed.
Defined.

(** Two goroutines whose functions have ended and a [Stop] that waits. *)
Lemma goroutines_finish_and_Wait_returns_witness :
  fresh New ∧
  run (init New) [CallGo (returns None); CallGo goexits; Terminate 1;
                  Terminate 0; Commit 1; CallStop]
    = Ok (after New [CallGo (returns None); CallGo goexits; Terminate 1;
                     Terminate 0; Commit 1; CallStop]) ∧
  Forall (λ gr, at_pc gr ≠ InF)
         (goroutines (after New [CallGo (returns None); CallGo goexits;
                                 Terminate 1; Terminate 0; Commit 1;
                                 CallStop])) ∧
  ∃ evs' w', run (after New [CallGo (returns None); CallGo goexits;
                             Terminate 1; Terminate 0; Commit 1; CallStop])
                 evs' = Ok w' ∧
             wg (grp w') = 0%Z ∧
             (∃ w'', step w' CallWait = Ok w'') ∧
             (∃ w'', step w' StopReturns = Ok w'').
Proof.
  assert (Forall (λ gr, at_pc gr ≠ InF)
            (goroutines (after New [CallGo (returns None); CallGo goexits;
                                    Terminate 1; Terminate 0; Commit 1;
                                    CallStop]))) as Hended.
  { vm_compute. repeat constructor; discriminate. }
  split; [exact fresh_New|]. split; [apply run_after; computed|].
  split; [exact Hended|].
  destruct (goroutines_finish_and_Wait_returns New
              [CallGo (returns None); CallGo goexits; Terminate 1;
               Terminate 0; Commit 1; CallStop]
              _ fresh_New
              (run_after New [CallGo (returns None); CallGo goexits;
                              Terminate 1; Terminate 0; Commit 1; CallStop]
                 eq_refl) Hended)
    as (evs' & w' & _ & Hrun & _ & Hwg & Hwait & Hstop).
  exists evs', w'. split; [exact Hrun|]. split; [exact Hwg|].
  split; [exact Hwait|]. apply Hstop. vm_compute. lia.
Defined.

(** nil, err1, nil, err2: the error [Wait] returns is that of a task. *)
Lemma Wait_outcome_is_owed_to_a_task_witness :
  fresh zeroGroup ∧
  run (init zeroGroup) fourTasks = Ok (after zeroGroup fourTasks) ∧
  step (after zeroGroup fourTasks) CallWait
    = Ok (after zeroGroup (fourTasks ++ [CallWait])) ∧
  ∃ f, f ∈ launched fourTasks ∧ body f = ReturnErr (Some err1).
Proof.
  split; [exact fresh_zeroGroup|]. split; [apply run_after; computed|].
  split; [apply step_after; computed|].
  destruct (Wait_outcome_is_owed_to_a_task zeroGroup fourTasks
              (after zeroGroup fourTasks)
              (after zeroGroup (fourTasks ++ [CallWait]))
              (WaitReturns (Some err1)) fresh_zeroGroup
              (run_after zeroGroup fourTasks eq_refl)
              (step_after zeroGroup fourTasks CallWait eq_refl))
    as (_ & Herr & _); [computed|].
  exact (proj1 (Herr err1 eq_refl)).
Defined.

(** A group from [New] whose only task succeeds: the context is live after
    [Wait]. *)
Lemma New_context_cancelled_iff_Wait_fails_witness :
  run (init New) allFine = Ok (after New allFine) ∧
  stopCalls (after New allFine) = 0 ∧
  step (after New allFine) CallWait = Ok (after New (allFine ++ [CallWait])) ∧
  waits (after New (allFine ++ [CallWait])) = [WaitReturns None] ∧
  ctxCalls (after New (allFine ++ [CallWait])) = 0.
Proof.
  assert (waits (after New (allFine ++ [CallWait]))
          = WaitReturns None :: waits (after New allFine)) as Hout by computed.
  split; [apply run_after; computed|]. split; [computed|].
  split; [apply step_after; computed|]. split; [exact Hout|].
  destruct (New_context_cancelled_iff_Wait_fails allFine (after New allFine)
              (after New (allFine ++ [CallWait])) (WaitReturns None)
              (run_after New allFine eq_refl) eq_refl
              (step_after New allFine CallWait eq_refl) Hout) as [_ Hlive].
  exact (proj2 Hlive eq_refl).
Defined.

End MoreSamples.

End Errgroup.
